(** * typed-client-router: a shallow embedding of [src/index.ts]

    The router composes three external collaborators (the [path-parser]
    matcher, the [query-string] codec and the [history] location store).
    They are interfaces here; the router's own code ([createRouter] and the
    closures it returns) is embedded function by function over them.

    JavaScript objects used as string-keyed maps are [gmap string _];
    exceptions are the [Throw] branch of [result]; the mutable variables
    captured by the closures of [createRouter] form the record [router],
    threaded through a small state-and-exception monad. *)

From Stdlib Require Import Ascii.
From stdpp Require Import base option list gmap strings.

(** ** Strings the way the source uses them *)

(** JavaScript truthiness of a string: every string but the empty one. *)
Definition truthy (s : string) : bool :=
  match s with
  | EmptyString => false
  | String _ _ => true
  end.

(** [s.substring(n)]: the characters of [s] from index [n] on; the empty
    string once [n] reaches the length. *)
Fixpoint substring_from (n : nat) (s : string) : string :=
  match n, s with
  | O, _ => s
  | S n', EmptyString => EmptyString
  | S n', String _ s' => substring_from n' s'
  end.

(** [s.split(c)]: the pieces of [s] between the occurrences of [c]; never
    an empty list. *)
Fixpoint split_on (c : ascii) (s : string) : list string :=
  match s with
  | EmptyString => [EmptyString]
  | String a s' =>
      if bool_decide (a = c) then EmptyString :: split_on c s'
      else match split_on c s' with
           | [] => [String a EmptyString]
           | p :: ps => String a p :: ps
           end
  end.

(** [s.split(c)[0]]: what stands before the first [c]. *)
Definition before_first (c : ascii) (s : string) : string :=
  hd EmptyString (split_on c s).

(** What stands after the first [c], when there is one. *)
Fixpoint after_first (c : ascii) (s : string) : option string :=
  match s with
  | EmptyString => None
  | String a s' => if bool_decide (a = c) then Some s' else after_first c s'
  end.

Definition qmark : ascii := "?"%char.
Definition slash : ascii := "/"%char.

(** [s[0] !== "/"] *)
Definition lacks_leading_slash (s : string) : bool :=
  match s with
  | String a _ => negb (bool_decide (a = slash))
  | EmptyString => true
  end.

(** [l.join(sep)] *)
Fixpoint join (sep : string) (l : list string) : string :=
  match l with
  | [] => EmptyString
  | [x] => x
  | x :: rest => x +:+ sep +:+ join sep rest
  end.

(** ** Values *)

(** A value of a parsed query, as [queryString.parse] types it:
    [string | null | Array<string | null>]. *)
Inductive qvalue :=
  | QStr (s : string)
  | QNull
  | QArr (l : list (option string)).

Global Instance qvalue_eq_dec : EqDecision qvalue.
Proof. solve_decision. Defined.

Global Instance QStr_inj : Inj (=) (=) QStr.
Proof. by intros ?? [= ->]. Qed.

(** What a call can throw: the router's own [new Error(message)], or an
    error raised inside a collaborator. *)
Inductive exn :=
  | Error (message : string)
  | CollaboratorError (message : string).

Inductive result (A : Type) :=
  | Ok (a : A)
  | Throw (e : exn).
Arguments Ok {A} a.
Arguments Throw {A} e.

(** ** The collaborators *)

(** [path-parser]: [new Path(template)], [path.test(pathname)] (an object of
    captures, or [null]), [path.build(params)] and [path.params]. *)
Class PathMatcher (Path : Type) := {
  newPath : string → result Path;
  path_test : Path → string → option (gmap string string);
  path_build : Path → gmap string string → result string;
  path_params : Path → list string;
}.

(** [query-string]: [parse] and [stringify]. *)
Class QueryCodec := {
  qs_parse : string → gmap string qvalue;
  qs_stringify : gmap string qvalue → string;
}.

(** The target of a navigation, [{ pathname, search }]. *)
Record target := { to_pathname : string; to_search : string }.

(** [history] over the browser: the pathname and the search string that the
    store reports once it has navigated to a target. *)
Class LocationStore := {
  store_locate : target → string * string;
}.

(** ** The location store's data *)

Inductive action := Pop | Push | Replace.

Global Instance action_eq_dec : EqDecision action.
Proof. solve_decision. Defined.

(** The state attached to a history entry; the router only ever sets
    [{ isQueryUpdate: true }]. *)
Record nav_state := { isQueryUpdate : bool }.

Record location := {
  loc_pathname : string;
  loc_search : string;
  loc_state : option nav_state;
}.

Record update := { u_action : action; u_location : location }.

(** One [history.push] or [history.replace] call as the store received it. *)
Record nav_call := {
  nc_action : action;
  nc_to : target;
  nc_state : option nav_state;
}.

Record history := {
  h_location : location;
  h_calls : list nav_call;
}.

(** [update.location.state?.isQueryUpdate], as a condition. *)
Definition state_isQueryUpdate (l : location) : bool :=
  match loc_state l with
  | Some s => isQueryUpdate s
  | None => false
  end.

(** ** The router *)

Section Router.
Context {Path : Type} {PM : PathMatcher Path} {QC : QueryCodec}
  {LS : LocationStore}.

(** An element of the [routes] array: an object, hence with an identity
    ([r_ref]), holding [name] and [path]; its [params], [queries] and
    [pathname] are getters over the store, see [route_params],
    [route_queries] and [route_pathname]. *)
Record route := {
  r_ref : nat;
  r_name : string;
  r_path : Path;
}.

(** A listener is a function value; only its identity matters to the
    router, which stores it in a [Set] and calls it. *)
Definition listener := nat.

(** The object built by the spread [{ ...activeRoute }]: a new identity,
    and the values the getters had when the copy was taken. *)
Record resolved := {
  rs_ref : nat;
  rs_name : string;
  rs_path : Path;
  rs_params : gmap string string;
  rs_queries : gmap string qvalue;
  rs_pathname : string;
}.

(** One call of a listener, with its argument. *)
Record invocation := {
  inv_listener : listener;
  inv_arg : option resolved;
}.

(** What the closures of [createRouter] share: the [routes] array, the
    (reassigned) [base] variable, the [history] object, the [listeners]
    set in insertion order, the allocator of object identities, and the
    listener calls made so far. *)
Record router := {
  routes : list route;
  base : option string;
  hist : history;
  listeners : list listener;
  next_ref : nat;
  calls : list invocation;
}.

Definition set_hist (h : history) (st : router) : router :=
  {| routes := routes st; base := base st; hist := h;
     listeners := listeners st; next_ref := next_ref st;
     calls := calls st |}.

Definition set_listeners (ls : list listener) (st : router) : router :=
  {| routes := routes st; base := base st; hist := hist st;
     listeners := ls; next_ref := next_ref st; calls := calls st |}.

Definition set_next_ref (n : nat) (st : router) : router :=
  {| routes := routes st; base := base st; hist := hist st;
     listeners := listeners st; next_ref := n; calls := calls st |}.

Definition set_calls (c : list invocation) (st : router) : router :=
  {| routes := routes st; base := base st; hist := hist st;
     listeners := listeners st; next_ref := next_ref st; calls := c |}.

(** *** State and exceptions *)

Definition M (A : Type) : Type := router → router * result A.

Definition throw {A} (e : exn) : M A := λ st, (st, Throw e).

Definition gets {A} (f : router → A) : M A := λ st, (st, Ok (f st)).

Definition modify (f : router → router) : M unit := λ st, (f st, Ok tt).

Definition lift {A} (r : result A) : M A := λ st, (st, r).

(** A [throw] ends the call with the state as it stands. *)
Global Instance M_ret : MRet M := λ A a st, (st, Ok a).

Global Instance M_bind : MBind M := λ A B k m st,
  match m st with
  | (st', Ok a) => k a st'
  | (st', Throw e) => (st', Throw e)
  end.

(** [l.forEach(f)] over a list of calls that cannot change [l]. *)
Fixpoint forEach {A} (l : list A) (f : A → M unit) : M unit :=
  match l with
  | [] => mret tt
  | x :: rest => f x ;; forEach rest f
  end.

(** *** The getters of a route object *)

Definition current_pathname (st : router) : string :=
  loc_pathname (h_location (hist st)).

Definition current_search (st : router) : string :=
  loc_search (h_location (hist st)).

(** [base?.length ?? 0] *)
Definition base_length (b : option string) : nat :=
  match b with
  | Some s => String.length s
  | None => 0
  end.

(** [this.path.test(history.location.pathname) || {}] *)
Definition route_params (st : router) (r : route) : gmap string string :=
  default ∅ (path_test (r_path r) (current_pathname st)).

(** [queryString.parse(history.location.search)] *)
Definition route_queries (st : router) : gmap string qvalue :=
  qs_parse (current_search st).

(** [history.location.pathname.substring(base?.length ?? 0)] *)
Definition route_pathname (st : router) : string :=
  substring_from (base_length (base st)) (current_pathname st).

(** *** Construction *)

(** The two branches that reassign [base] at the start of
    [createRouter]. *)
Definition normalize_base (b : option string) : option string :=
  match b with
  | None => None
  | Some s =>
      if bool_decide (s = "/") then Some ""
      else if truthy s && lacks_leading_slash s then Some ("/" +:+ s)
      else Some s
  end.

(** [base ? base + routePath : routePath] *)
Definition mount (b : option string) (routePath : string) : string :=
  match b with
  | Some s => if truthy s then s +:+ routePath else routePath
  | None => routePath
  end.

(** The [for (const route in config)] loop; [config] is the sequence of
    the object's entries in the order the loop visits them, and [n] is
    the number of routes pushed so far. *)
Fixpoint compile_routes (b : option string) (config : list (string * string))
    (n : nat) : result (list route) :=
  match config with
  | [] => Ok []
  | (name, template) :: rest =>
      let routePath := before_first qmark template in
      match newPath (mount b routePath) with
      | Throw e => Throw e
      | Ok p =>
          match compile_routes b rest (S n) with
          | Throw e => Throw e
          | Ok rs => Ok ({| r_ref := n; r_name := name; r_path := p |} :: rs)
          end
      end
  end.

(** [createRouter(config, { base })], with the location that
    [createBrowserHistory()] finds. *)
Definition createRouter (config : list (string * string))
    (b : option string) (init : location) : result router :=
  let b' := normalize_base b in
  match compile_routes b' config 0 with
  | Throw e => Throw e
  | Ok rs =>
      Ok {| routes := rs; base := b';
            hist := {| h_location := init; h_calls := [] |};
            listeners := []; next_ref := length rs; calls := [] |}
  end.

(** *** Lookup and resolution *)

Definition getRoute (name : string) : M route :=
  route ← gets (λ st, find (λ r, bool_decide (r_name r = name)) (routes st));
  match route with
  | Some r => mret r
  | None => throw (Error ("Can not find route for " +:+ name))
  end.

(** [routes.find((route) => route.path.test(pathname))] for a given
    pathname: an object of captures is truthy, [null] is not. *)
Definition matchPath (rs : list route) (pathname : string) : option route :=
  find (λ r, bool_decide (is_Some (path_test (r_path r) pathname))) rs.

Definition getActiveRoute : M (option route) :=
  gets (λ st, matchPath (routes st) (current_pathname st)).

(** *** Splitting *)

(** The body of the [forEach] over [Object.entries(params || {})]. *)
Definition split_entry (names : gset string) (key : string)
    (value : option string)
    (acc : gmap string string * gmap string string) :=
  match value with
  | Some v =>
      if bool_decide (key ∈ names) then (<[key := v]> (acc.1), acc.2)
      else (acc.1, <[key := v]> (acc.2))
  | None => acc
  end.

(** [splitParams(route, params)]: a value is a string or [undefined]
    ([None] inside the map); [params] itself may be [undefined]. *)
Definition splitParams (r : route)
    (params : option (gmap string (option string)))
    : gmap string string * gmap string string :=
  let pathParamNames : gset string := list_to_set (path_params (r_path r)) in
  map_fold (split_entry pathParamNames) (∅, ∅) (default ∅ params).

(** *** Notification *)

(** [{ ...activeRoute }] *)
Definition spread (r : route) : M resolved :=
  λ st,
    (set_next_ref (S (next_ref st)) st,
     Ok {| rs_ref := next_ref st; rs_name := r_name r; rs_path := r_path r;
           rs_params := route_params st r; rs_queries := route_queries st;
           rs_pathname := route_pathname st |}).

(** Calling a listener: all the router sees of it is that it was called. *)
Definition call_listener (l : listener) (arg : option resolved) : M unit :=
  modify (λ st, set_calls (calls st ++ [{| inv_listener := l; inv_arg := arg |}]) st).

Definition notify (u : update) : M unit :=
  if bool_decide (u_action u = Replace) && state_isQueryUpdate (u_location u)
  then mret tt
  else
    activeRoute ← getActiveRoute;
    ls ← gets listeners;
    forEach ls (λ l,
      match activeRoute with
      | Some r => v ← spread r; call_listener l (Some v)
      | None => call_listener l None
      end).

(** *** The location store, with [notify] as its one subscriber *)

Definition navigate (a : action) (t : target) (s : option nav_state) : M unit :=
  let '(p, q) := store_locate t in
  let l := {| loc_pathname := p; loc_search := q; loc_state := s |} in
  modify (λ st, set_hist {| h_location := l;
                            h_calls := h_calls (hist st) ++
                              [{| nc_action := a; nc_to := t; nc_state := s |}] |} st) ;;
  notify {| u_action := a; u_location := l |}.

Definition history_push (t : target) : M unit := navigate Push t None.

Definition history_replace (t : target) (s : option nav_state) : M unit :=
  navigate Replace t s.

(** A back or forward move of the user: the store lands on [l] and emits
    a [Pop]. *)
Definition history_pop (l : location) : M unit :=
  modify (λ st, set_hist {| h_location := l; h_calls := h_calls (hist st) |} st) ;;
  notify {| u_action := Pop; u_location := l |}.

(** *** The returned object *)

Definition qstrings (m : gmap string string) : gmap string qvalue := QStr <$> m.

Definition url (name : string) (params : option (gmap string (option string)))
    : M string :=
  route ← getRoute name;
  let '(pathParams, queryParams) := splitParams route params in
  pathname ← lift (path_build (r_path route) pathParams);
  let search := qs_stringify (qstrings queryParams) in
  mret (if truthy search then pathname +:+ "?" +:+ search else pathname).

Definition push (name : string) (params : option (gmap string (option string)))
    : M unit :=
  route ← getRoute name;
  let '(pathParams, queryParams) := splitParams route params in
  pathname ← lift (path_build (r_path route) pathParams);
  history_push {| to_pathname := pathname;
                  to_search := qs_stringify (qstrings queryParams) |}.

Definition replace (name : string) (params : option (gmap string (option string)))
    : M unit :=
  route ← getRoute name;
  let '(pathParams, queryParams) := splitParams route params in
  pathname ← lift (path_build (r_path route) pathParams);
  history_replace {| to_pathname := pathname;
                     to_search := qs_stringify (qstrings queryParams) |} None.

(** The query mapping [setQuery] serializes. *)
Definition updated_query (existingQuery : gmap string qvalue) (key : string)
    (value : option string) : gmap string qvalue :=
  match value with
  | None => delete key existingQuery
  | Some v => <[key := QStr v]> existingQuery
  end.

Definition setQuery (key : string) (value : option string) : M unit :=
  existingQuery ← gets (λ st, qs_parse (current_search st));
  pathname ← gets current_pathname;
  history_replace
    {| to_pathname := pathname;
       to_search := "?" +:+ qs_stringify (updated_query existingQuery key value) |}
    (Some {| isQueryUpdate := true |}).

(** [listeners.add(listener)] *)
Definition listen (l : listener) : M unit :=
  modify (λ st, if bool_decide (l ∈ listeners st) then st
                else set_listeners (listeners st ++ [l]) st).

(** The function [listen] returns: [listeners.delete(listener)]. *)
Definition dispose (l : listener) : M unit :=
  modify (λ st, set_listeners (filter (λ l', l' ≠ l) (listeners st)) st).

Definition current : M (option route) := getActiveRoute.

Definition queries : M (gmap string qvalue) :=
  gets (λ st, qs_parse (current_search st)).

Definition pathname : M string :=
  gets (λ st, substring_from (base_length (base st)) (current_pathname st)).

End Router.

Arguments route Path : clear implicits.
Arguments resolved Path : clear implicits.
Arguments invocation Path : clear implicits.
Arguments router Path : clear implicits.
Arguments M Path : clear implicits.

(** ** Collaborators to run the router on *)

(** Modelled from the spec: the Path Matcher (the [path-parser] package is
    not part of this repository). A template is [/<segment>(/<segment>)*];
    a segment is a literal, [:name] (captures one segment) or a trailing
    [*name] (captures the remainder of the path, slashes included);
    [build] fails when a placeholder has no value. *)
Module Segments.

Inductive segment :=
  | Lit (s : string)
  | Param (x : string)
  | Splat (x : string).

Definition classify (s : string) : segment :=
  match s with
  | String ":" x => Param x
  | String "*" x => Splat x
  | _ => Lit s
  end.

(** A wildcard is accepted in the last position only. *)
Fixpoint well_placed (segs : list segment) : bool :=
  match segs with
  | [] => true
  | [_] => true
  | Splat _ :: _ => false
  | _ :: rest => well_placed rest
  end.

Definition compile (template : string) : result (list segment) :=
  match template with
  | String "/" rest =>
      let segs := classify <$> split_on slash rest in
      if well_placed segs then Ok segs
      else Throw (CollaboratorError "Could not parse path")
  | _ => Throw (CollaboratorError "Could not parse path")
  end.

Fixpoint match_segments (segs : list segment) (parts : list string)
    : option (gmap string string) :=
  match segs, parts with
  | [], [] => Some ∅
  | Lit s :: segs', p :: parts' =>
      if bool_decide (s = p) then match_segments segs' parts' else None
  | Param x :: segs', p :: parts' =>
      if truthy p then (λ m, <[x := p]> m) <$> match_segments segs' parts'
      else None
  | Splat x :: _, _ :: _ => Some {[ x := join "/" parts ]}
  | _, _ => None
  end.

Definition test (segs : list segment) (pathname : string)
    : option (gmap string string) :=
  match pathname with
  | String "/" rest => match_segments segs (split_on slash rest)
  | _ => None
  end.

Definition render (params : gmap string string) (s : segment) : option string :=
  match s with
  | Lit s => Some s
  | Param x | Splat x => params !! x
  end.

Definition build (segs : list segment) (params : gmap string string)
    : result string :=
  match mapM (render params) segs with
  | Some parts => Ok ("/" +:+ join "/" parts)
  | None => Throw (CollaboratorError "Cannot build path: missing parameters")
  end.

Definition placeholder (s : segment) : option string :=
  match s with
  | Lit _ => None
  | Param x | Splat x => Some x
  end.

Definition params (segs : list segment) : list string := omap placeholder segs.

Definition matcher : PathMatcher (list segment) :=
  {| newPath := compile; path_test := test;
     path_build := build; path_params := params |}.

End Segments.

(** Modelled from the spec: the Query Codec (the [query-string] package is
    not part of this repository): a search string is [key=value] pairs
    joined by [&], after an optional leading [?]; the empty search string
    is the empty mapping, a key without [=] has the value [null], a
    repeated key collects its values. No percent-encoding. *)
Module PlainQuery.

Definition eq_sign : ascii := "="%char.

Definition pair_string (k : string) (v : option string) : string :=
  match v with
  | Some s => k +:+ "=" +:+ s
  | None => k
  end.

Definition entry_string (kv : string * qvalue) : string :=
  match kv.2 with
  | QStr s => pair_string kv.1 (Some s)
  | QNull => pair_string kv.1 None
  | QArr l => join "&" (pair_string kv.1 <$> l)
  end.

Definition stringify (m : gmap string qvalue) : string :=
  join "&" (filter (λ s, s ≠ "") (entry_string <$> map_to_list m)).

Definition as_list (v : qvalue) : list (option string) :=
  match v with
  | QStr s => [Some s]
  | QNull => [None]
  | QArr l => l
  end.

Definition add_piece (acc : gmap string qvalue) (piece : string)
    : gmap string qvalue :=
  if truthy piece then
    let key := before_first eq_sign piece in
    let value := after_first eq_sign piece in
    match acc !! key with
    | None => <[key := from_option QStr QNull value]> acc
    | Some old => <[key := QArr (as_list old ++ [value])]> acc
    end
  else acc.

Definition strip_mark (s : string) : string :=
  match s with
  | String "?" rest => rest
  | _ => s
  end.

Definition parse (s : string) : gmap string qvalue :=
  foldl add_piece ∅ (split_on "&"%char (strip_mark s)).

Definition codec : QueryCodec :=
  {| qs_parse := parse; qs_stringify := stringify |}.

End PlainQuery.

(** Modelled from the spec: the Location Store (the [history] package is
    not part of this repository): after a navigation the store reports the
    pathname it was given, and the search string with its [?] in front
    when there is a query and empty when there is none. *)
Module Browser.

Definition search_of (s : string) : string :=
  match s with
  | "" | "?" => ""
  | String "?" _ => s
  | _ => "?" +:+ s
  end.

Definition locate (t : target) : string * string :=
  (to_pathname t, search_of (to_search t)).

Definition store : LocationStore := {| store_locate := locate |}.

End Browser.

(** ** Routers to run *)

Section Examples.
Local Existing Instance Segments.matcher.
Local Existing Instance PlainQuery.codec.
Local Existing Instance Browser.store.

Definition home : location :=
  {| loc_pathname := "/"; loc_search := ""; loc_state := None |}.

(** The configuration of the README. *)
Definition readme_config : list (string * string) :=
  [("main", "/"); ("items", "/items?page&sort"); ("item", "/items/:id");
   ("creative", "/creative/*something")].

(** A specific route declared before a general one, and the other way
    round. *)
Definition specific_first : list (string * string) :=
  [("item", "/items/:id?sort&page"); ("page", "/:section/:id")].


(** [{ id: '7', sort: 'asc', page: undefined }] *)
Definition item_values : option (gmap string (option string)) :=
  Some {[ "id" := Some "7"; "sort" := Some "asc"; "page" := None ]}.

(** A router mounted on [/app], the browser standing at [/app/items]. *)
Definition app_config : list (string * string) := [("items", "/items")].

Definition at_app_items : location :=
  {| loc_pathname := "/app/items"; loc_search := ""; loc_state := None |}.

Definition at_foo_bar : location :=
  {| loc_pathname := "/"; loc_search := "?foo=bar"; loc_state := None |}.

Definition at_items_7 : location :=
  {| loc_pathname := "/items/7"; loc_search := ""; loc_state := None |}.

(** The routers that [createRouter] builds from these. *)
Definition readme_routes : list (route (list Segments.segment)) :=
  [{| r_ref := 0; r_name := "main"; r_path := [Segments.Lit ""] |};
   {| r_ref := 1; r_name := "items"; r_path := [Segments.Lit "items"] |};
   {| r_ref := 2; r_name := "item";
      r_path := [Segments.Lit "items"; Segments.Param "id"] |};
   {| r_ref := 3; r_name := "creative";
      r_path := [Segments.Lit "creative"; Segments.Splat "something"] |}].

Definition new_router (rs : list (route (list Segments.segment)))
    (b : option string) (l : location) : router (list Segments.segment) :=
  {| routes := rs; base := b; hist := {| h_location := l; h_calls := [] |};
     listeners := []; next_ref := length rs; calls := [] |}.

Definition readme_router : router (list Segments.segment) :=
  new_router readme_routes None home.

Definition item_route : route (list Segments.segment) :=
  {| r_ref := 0; r_name := "item";
     r_path := [Segments.Lit "items"; Segments.Param "id"] |}.

Definition specific_router : router (list Segments.segment) :=
  new_router
    [item_route;
     {| r_ref := 1; r_name := "page";
        r_path := [Segments.Param "section"; Segments.Param "id"] |}]
    None home.






End Examples.

(** ** Runs of a router *)

Section Runs.
Context {Path : Type} {PM : PathMatcher Path} {QC : QueryCodec}
  {LS : LocationStore}.

Local Abbreviation route := (route Path).
Local Abbreviation resolved := (resolved Path).
Local Abbreviation invocation := (invocation Path).
Local Abbreviation router := (router Path).

(** What can happen to a router once it is built: a call of one of its
    members, or a back/forward move of the user. *)
Inductive op :=
  | OUrl (name : string) (params : option (gmap string (option string)))
  | OPush (name : string) (params : option (gmap string (option string)))
  | OReplace (name : string) (params : option (gmap string (option string)))
  | OSetQuery (key : string) (value : option string)
  | OListen (l : listener)
  | ODispose (l : listener)
  | OCurrent
  | OQueries
  | OPathname
  | OPop (l : location).

(** The state an operation leaves, whether it returned or threw. *)
Definition run (o : op) (st : router) : router :=
  match o with
  | OUrl name params => (url name params st).1
  | OPush name params => (push name params st).1
  | OReplace name params => (replace name params st).1
  | OSetQuery key value => (setQuery key value st).1
  | OListen l => (listen l st).1
  | ODispose l => (dispose l st).1
  | OCurrent => (current st).1
  | OQueries => (queries st).1
  | OPathname => (pathname st).1
  | OPop l => (history_pop l st).1
  end.

Inductive reachable (st0 : router) : router → Prop :=
  | reachable_start : reachable st0 st0
  | reachable_run o st : reachable st0 st → reachable st0 (run o st).

(** The argument a listener gets for the route [r]: the copy numbered
    [n] of what the getters of [r] read in [st]. *)
Definition copy_of (st : router) (r : route) (n : nat) : resolved :=
  {| rs_ref := n; rs_name := r_name r; rs_path := r_path r;
     rs_params := route_params st r; rs_queries := route_queries st;
     rs_pathname := route_pathname st |}.

(** The listener calls of one pass over [ls], copies numbered from [n]. *)
Definition fan_out (st : router) (active : option route) (n : nat)
    (ls : list listener) : list invocation :=
  match active with
  | Some r =>
      imap (λ i l, {| inv_listener := l; inv_arg := Some (copy_of st r (n + i)) |}) ls
  | None => (λ l, {| inv_listener := l; inv_arg := None |}) <$> ls
  end.

(** The identities handed out by one pass. *)
Definition allocated (active : option route) (ls : list listener) : nat :=
  match active with
  | Some _ => length ls
  | None => 0
  end.

(** The state after a pass that is not suppressed. *)
Definition notified (st : router) : router :=
  let active := matchPath (routes st) (current_pathname st) in
  set_calls (calls st ++ fan_out st active (next_ref st) (listeners st))
    (set_next_ref (next_ref st + allocated active (listeners st)) st).

(** The state after the store has moved to the target [t]. *)
Definition moved (a : action) (t : target) (s : option nav_state)
    (st : router) : router :=
  set_hist {| h_location := {| loc_pathname := (store_locate t).1;
                               loc_search := (store_locate t).2;
                               loc_state := s |};
              h_calls := h_calls (hist st) ++
                [{| nc_action := a; nc_to := t; nc_state := s |}] |} st.

Definition how_often (l : listener) (c : list invocation) : nat :=
  length (filter (λ i, inv_listener i = l) c).

Definition refs_of (c : list invocation) : list nat :=
  omap (λ i, rs_ref <$> inv_arg i) c.

(** The condition under which [notify] returns at once. *)
Definition suppressed (u : update) : bool :=
  bool_decide (u_action u = Replace) && state_isQueryUpdate (u_location u).

(** The three ways [url], [push] and [replace] start: the lookup, the
    split and the build. *)
Definition prepared (name : string)
    (params : option (gmap string (option string))) (st : router)
    : result (string * string) :=
  match find (λ r, bool_decide (r_name r = name)) (routes st) with
  | None => Throw (Error ("Can not find route for " +:+ name))
  | Some r =>
      match path_build (r_path r) (splitParams r params).1 with
      | Throw e => Throw e
      | Ok p => Ok (p, qs_stringify (qstrings (splitParams r params).2))
      end
  end.

(** The target [setQuery] hands to [history.replace]. *)
Definition query_target (key : string) (value : option string) (st : router)
    : target :=
  {| to_pathname := current_pathname st;
     to_search := "?" +:+ qs_stringify
                    (updated_query (qs_parse (current_search st)) key value) |}.

(** Identities are handed out in order: the routes of the table bear their
    positions, every copy passed to a listener bears a later number, below
    the next one to hand out, and no two copies bear the same. *)
Definition refs_in_order (st : router) : Prop :=
  NoDup (refs_of (calls st)) ∧
  (∀ n, n ∈ refs_of (calls st) → length (routes st) ≤ n < next_ref st)%nat ∧
  (∀ i r, routes st !! i = Some r → r_ref r = i) ∧
  (length (routes st) ≤ next_ref st)%nat.

End Runs.

(** ** More routers to run *)

Section MoreExamples.
Local Existing Instance Segments.matcher.
Local Existing Instance PlainQuery.codec.
Local Existing Instance Browser.store.

(** The router of the README with one listener registered. *)
Definition one_listener : router (list Segments.segment) :=
  run (OListen 7) readme_router.

(** The location of a history entry that [setQuery] made. *)
Definition marked_home : location :=
  {| loc_pathname := "/"; loc_search := "";
     loc_state := Some {| isQueryUpdate := true |} |}.

Definition readme_main_route : route (list Segments.segment) :=
  {| r_ref := 0; r_name := "main"; r_path := [Segments.Lit ""] |}.

Definition readme_item_route : route (list Segments.segment) :=
  {| r_ref := 2; r_name := "item";
     r_path := [Segments.Lit "items"; Segments.Param "id"] |}.

(** The copy of [main] that the listener of [one_listener] is handed at
    [/], and the call that hands it. *)
Definition main_copy : resolved (list Segments.segment) :=
  {| rs_ref := 4; rs_name := "main"; rs_path := [Segments.Lit ""];
     rs_params := ∅; rs_queries := ∅; rs_pathname := "/" |}.

Definition main_call : invocation (list Segments.segment) :=
  {| inv_listener := 7; inv_arg := Some main_copy |}.

(** What is done with [one_listener] once its listener is disposed of. *)
Definition after_disposal : list op :=
  [OPush "items" None; OSetQuery "page" (Some "2"); OPop at_items_7;
   OReplace "main" None].

End MoreExamples.

(** ** Facts about lists and strings *)

Lemma find_first {A} (f : A → bool) (l : list A) (r : A) :
  find f l = Some r →
  ∃ i, l !! i = Some r ∧ f r = true ∧
       ∀ j x, (j < i)%nat → l !! j = Some x → f x = false.
Proof.
  induction l as [|a l IH]; simpl; [discriminate|].
  destruct (f a) eqn:Fa.
  - intros [= ->]. exists 0. split_and!; [done|assumption|]. intros j x Hj. lia.
  - intros H. destruct (IH H) as (i & Hi & Hr & Hlt).
    exists (S i). split_and!; [assumption..|].
    intros [|j] x Hj Hx; simpl in Hx.
    + by injection Hx as <-.
    + apply (Hlt j); [lia|assumption].
Qed.

Lemma find_absent {A} (f : A → bool) (l : list A) :
  find f l = None ↔ ∀ x, x ∈ l → f x = false.
Proof.
  induction l as [|a l IH]; simpl.
  - split; [|done]. intros _ x Hx. by apply elem_of_nil in Hx.
  - destruct (f a) eqn:Fa.
    + split; [discriminate|]. intros H. rewrite (H a) in Fa; [discriminate|left].
    + rewrite IH. split.
      * intros H x [->|Hx]%elem_of_cons; auto.
      * intros H x Hx. apply H. by right.
Qed.


Lemma string_app_cons (a : ascii) (s t : string) :
  String a s +:+ t = String a (s +:+ t).
Proof. reflexivity. Qed.


Lemma string_app_nil_r (s : string) : s +:+ "" = s.
Proof.
  induction s as [|a s IH]; [done|]. by rewrite string_app_cons, IH.
Qed.

Lemma string_app_length (s t : string) :
  String.length (s +:+ t) = String.length s + String.length t.
Proof.
  induction s as [|a s IH]; [done|]. rewrite string_app_cons. simpl.
  by rewrite IH.
Qed.

Lemma truthy_false (s : string) : truthy s = false ↔ s = "".
Proof. by destruct s. Qed.


Lemma substring_from_length (n : nat) (s : string) :
  String.length (substring_from n s) = String.length s - n.
Proof.
  revert s. induction n as [|n IH]; intros s; simpl.
  - lia.
  - destruct s as [|a s]; simpl; [done|]. apply IH.
Qed.

(** ** Facts about the router *)

Section Facts.
Context {Path : Type} {PM : PathMatcher Path} {QC : QueryCodec}
  {LS : LocationStore}.

Local Abbreviation route := (route Path).
Local Abbreviation resolved := (resolved Path).
Local Abbreviation invocation := (invocation Path).
Local Abbreviation router := (router Path).

Implicit Types (st : router) (r : route) (ls : list listener).

Lemma router_eq st st' :
  routes st = routes st' → base st = base st' → hist st = hist st' →
  listeners st = listeners st' → next_ref st = next_ref st' →
  calls st = calls st' → st = st'.
Proof. destruct st, st'; simpl; intros; by subst. Qed.

Lemma forEach_copies ls r st :
  forEach ls (λ l, v ← spread r; call_listener l (Some v)) st
  = (set_calls (calls st ++ fan_out st (Some r) (next_ref st) ls)
       (set_next_ref (next_ref st + length ls) st), Ok tt).
Proof.
  revert st. induction ls as [|l ls IH]; intros st.
  - simpl. unfold mret, M_ret. f_equal.
    apply router_eq; simpl; [done..|lia|by rewrite app_nil_r].
  - simpl. unfold mbind at 1, M_bind at 1.
    unfold mbind at 1, M_bind at 1. unfold spread at 1.
    unfold call_listener at 1, modify at 1.
    rewrite IH. f_equal. apply router_eq; simpl; [done..|lia|].
    rewrite <- app_assoc. f_equal. simpl. f_equal.
    + unfold copy_of. by rewrite Nat.add_0_r.
    + apply imap_ext. intros i x _. simpl.
      by replace (S (next_ref st + i)) with (next_ref st + S i) by lia.
Qed.

Lemma forEach_absent ls st :
  forEach ls (λ l, call_listener l None) st
  = (set_calls (calls st ++ fan_out st None (next_ref st) ls) st, Ok tt).
Proof.
  revert st. induction ls as [|l ls IH]; intros st.
  - simpl. unfold mret, M_ret. f_equal.
    apply router_eq; simpl; [done..|by rewrite app_nil_r].
  - simpl. unfold mbind at 1, M_bind at 1.
    unfold call_listener at 1, modify at 1.
    rewrite IH. f_equal. apply router_eq; simpl; [done..|].
    by rewrite <- app_assoc.
Qed.

Lemma notify_run u st :
  notify u st = (if suppressed u then st else notified st, Ok tt).
Proof.
  unfold notify, suppressed.
  destruct (bool_decide (u_action u = Replace) && state_isQueryUpdate (u_location u));
    [done|].
  unfold mbind, M_bind, getActiveRoute, gets. unfold notified.
  destruct (matchPath (routes st) (current_pathname st)) as [r|].
  - exact (forEach_copies (listeners st) r st).
  - etrans; [exact (forEach_absent (listeners st) st)|]. f_equal.
    apply router_eq; simpl; [done..|lia|done].
Qed.

Lemma navigate_run a t s st :
  navigate a t s st
  = (if bool_decide (a = Replace) && from_option isQueryUpdate false s
     then moved a t s st else notified (moved a t s st), Ok tt).
Proof.
  unfold navigate. destruct (store_locate t) as [p q] eqn:Ht.
  unfold mbind, M_bind, modify. rewrite notify_run.
  unfold suppressed, state_isQueryUpdate, moved. simpl. rewrite Ht. simpl.
  by destruct s.
Qed.

Lemma getRoute_run name st :
  getRoute name st
  = (st, match find (λ r, bool_decide (r_name r = name)) (routes st) with
         | Some r => Ok r
         | None => Throw (Error ("Can not find route for " +:+ name))
         end).
Proof.
  unfold getRoute, mbind, M_bind, gets.
  by destruct (find _ (routes st)).
Qed.

Lemma url_run name params st :
  url name params st
  = (st, match prepared name params st with
         | Ok (p, q) => Ok (if truthy q then p +:+ "?" +:+ q else p)
         | Throw e => Throw e
         end).
Proof.
  unfold url, prepared. unfold mbind at 1, M_bind at 1. rewrite getRoute_run.
  destruct (find _ (routes st)) as [r|]; [|done].
  unfold mbind, M_bind.
  destruct (splitParams r params) as [pp qp]. simpl. unfold lift.
  by destruct (path_build (r_path r) pp).
Qed.

Lemma push_run name params st :
  push name params st
  = match prepared name params st with
    | Ok (p, q) =>
        (notified (moved Push {| to_pathname := p; to_search := q |} None st), Ok tt)
    | Throw e => (st, Throw e)
    end.
Proof.
  unfold push, prepared. unfold mbind at 1, M_bind at 1. rewrite getRoute_run.
  destruct (find _ (routes st)) as [r|]; [|done].
  unfold mbind, M_bind.
  destruct (splitParams r params) as [pp qp]. simpl. unfold lift.
  destruct (path_build (r_path r) pp); [|done].
  unfold history_push. by rewrite navigate_run.
Qed.

Lemma replace_run name params st :
  replace name params st
  = match prepared name params st with
    | Ok (p, q) =>
        (notified (moved Replace {| to_pathname := p; to_search := q |} None st), Ok tt)
    | Throw e => (st, Throw e)
    end.
Proof.
  unfold replace, prepared. unfold mbind at 1, M_bind at 1. rewrite getRoute_run.
  destruct (find _ (routes st)) as [r|]; [|done].
  unfold mbind, M_bind.
  destruct (splitParams r params) as [pp qp]. simpl. unfold lift.
  destruct (path_build (r_path r) pp); [|done].
  unfold history_replace. by rewrite navigate_run.
Qed.

Lemma setQuery_run key value st :
  setQuery key value st
  = (moved Replace (query_target key value st)
       (Some {| isQueryUpdate := true |}) st, Ok tt).
Proof.
  unfold setQuery, mbind, M_bind, gets, history_replace.
  by rewrite navigate_run.
Qed.

Lemma history_pop_run l st :
  history_pop l st
  = (notified (set_hist {| h_location := l; h_calls := h_calls (hist st) |} st),
     Ok tt).
Proof.
  unfold history_pop, mbind, M_bind, modify. by rewrite notify_run.
Qed.

(** *** What a run preserves *)

Lemma run_shape o st :
  run o st = st
  ∨ (∃ h, run o st = set_hist h st)
  ∨ (∃ h, run o st = notified (set_hist h st))
  ∨ (∃ l, run o st = (listen l st).1)
  ∨ (∃ l, run o st = (dispose l st).1).
Proof.
  destruct o as [n p|n p|n p|k v|l|l| | | |l]; simpl.
  - left. by rewrite url_run.
  - rewrite push_run. destruct (prepared n p st) as [[a q]|e]; simpl; eauto.
  - rewrite replace_run. destruct (prepared n p st) as [[a q]|e]; simpl; eauto.
  - rewrite setQuery_run. simpl. eauto.
  - eauto 6.
  - eauto 6.
  - by left.
  - by left.
  - by left.
  - rewrite history_pop_run. simpl. eauto.
Qed.

Lemma listen_state l st :
  (listen l st).1 = if bool_decide (l ∈ listeners st) then st
                    else set_listeners (listeners st ++ [l]) st.
Proof. done. Qed.

Lemma run_routes o st : routes (run o st) = routes st ∧ base (run o st) = base st.
Proof.
  destruct (run_shape o st) as [->|[[h ->]|[[h ->]|[[l ->]|[l ->]]]]]; try done.
  rewrite listen_state. by destruct (bool_decide _).
Qed.

Lemma reachable_routes st0 st :
  reachable st0 st → routes st = routes st0 ∧ base st = base st0.
Proof.
  induction 1 as [|o st _ [IHr IHb]]; [done|].
  destruct (run_routes o st) as [-> ->]. done.
Qed.

(** *** Construction *)

(** Each route of the table comes from the entry of the configuration at
    its position: same name, the matcher compiled from the mounted path
    portion of the template, and its position (counted from [n]) as
    identity. *)
Lemma compile_routes_entries b config n rs :
  compile_routes b config n = Ok rs →
  ∀ i r, rs !! i = Some r →
    ∃ name template,
      config !! i = Some (name, template) ∧ r_name r = name ∧
      newPath (mount b (before_first qmark template)) = Ok (r_path r) ∧
      r_ref r = n + i.
Proof.
  revert n rs. induction config as [|[name template] config IH]; intros n rs; simpl.
  - intros [= <-] i r Hi. by rewrite lookup_nil in Hi.
  - destruct (newPath _) as [p|e] eqn:Hp; [|discriminate].
    destruct (compile_routes b config (S n)) as [rs'|e] eqn:Hrs; [|discriminate].
    intros [= <-] [|i] r Hi; simpl in Hi.
    + injection Hi as <-. exists name, template. simpl.
      split_and!; [done..|lia].
    + destruct (IH _ _ Hrs i r Hi) as (nm & t & H1 & H2 & H3 & H4).
      exists nm, t. split_and!; [done..|lia].
Qed.

Lemma compile_routes_names b config n rs :
  compile_routes b config n = Ok rs → r_name <$> rs = config.*1.
Proof.
  revert n rs. induction config as [|[name template] config IH]; intros n rs; simpl.
  - by intros [= <-].
  - destruct (newPath _) as [p|e]; [|discriminate].
    destruct (compile_routes b config (S n)) as [rs'|e] eqn:Hrs; [|discriminate].
    intros [= <-]. simpl. f_equal. by eapply IH.
Qed.

Lemma createRouter_routes config b init st0 :
  createRouter config b init = Ok st0 →
  compile_routes (normalize_base b) config 0 = Ok (routes st0) ∧
  base st0 = normalize_base b ∧ listeners st0 = [] ∧ calls st0 = [] ∧
  next_ref st0 = length (routes st0) ∧ h_location (hist st0) = init.
Proof.
  unfold createRouter.
  destruct (compile_routes _ config 0) as [rs|e]; [|discriminate].
  by intros [= <-].
Qed.

(** *** Resolution *)

Lemma matchPath_accepts (rs : list route) (p : string) (r : route) :
  matchPath rs p = Some r →
  ∃ i ps, rs !! i = Some r ∧ path_test (r_path r) p = Some ps ∧
    ∀ j r', (j < i)%nat → rs !! j = Some r' → path_test (r_path r') p = None.
Proof.
  intros H. apply find_first in H as (i & Hi & Hr & Hlt).
  apply bool_decide_eq_true in Hr as [ps Hps].
  exists i, ps. split_and!; [done..|].
  intros j r' Hj Hr'. specialize (Hlt j r' Hj Hr').
  apply bool_decide_eq_false in Hlt. by apply eq_None_not_Some.
Qed.

Lemma matchPath_none (rs : list route) (p : string) :
  matchPath rs p = None ↔ ∀ r, r ∈ rs → path_test (r_path r) p = None.
Proof.
  unfold matchPath. rewrite find_absent. split; intros H r Hr.
  - specialize (H r Hr). apply bool_decide_eq_false in H.
    by apply eq_None_not_Some.
  - apply bool_decide_eq_false. rewrite (H r Hr). by intros [? ?].
Qed.


(** *** Splitting *)

(** Where [splitParams] puts a key: by its value and by whether the matcher
    names it. *)
Lemma splitParams_lookup r (params : option (gmap string (option string)))
    (k : string) :
  (splitParams r params).1 !! k
  = (if bool_decide (k ∈ path_params (r_path r))
     then default ∅ params !! k ≫= id else None) ∧
  (splitParams r params).2 !! k
  = (if bool_decide (k ∈ path_params (r_path r))
     then None else default ∅ params !! k ≫= id).
Proof.
  unfold splitParams. generalize (default ∅ params). intros m.
  apply (map_fold_weak_ind
    (λ acc (m : gmap string (option string)),
       acc.1 !! k = (if bool_decide (k ∈ path_params (r_path r))
                     then m !! k ≫= id else None) ∧
       acc.2 !! k = (if bool_decide (k ∈ path_params (r_path r))
                     then None else m !! k ≫= id))).
  - simpl. rewrite !lookup_empty. simpl. by destruct (bool_decide _).
  - clear m. intros i x m acc Hi [IH1 IH2]. unfold split_entry.
    destruct (decide (i = k)) as [->|Hne].
    + rewrite lookup_insert_eq. rewrite Hi in IH1, IH2. simpl in IH1, IH2.
      destruct x as [v|]; simpl.
      * rewrite (bool_decide_ext (k ∈ (list_to_set (path_params (r_path r)) : gset string))
                   (k ∈ path_params (r_path r))) by apply elem_of_list_to_set.
        destruct (bool_decide (k ∈ path_params (r_path r))); simpl.
        -- by rewrite lookup_insert_eq.
        -- by rewrite lookup_insert_eq.
      * by destruct (bool_decide (k ∈ path_params (r_path r))).
    + rewrite lookup_insert_ne by done.
      destruct x as [v|]; [|done].
      destruct (bool_decide (i ∈ _)); simpl; by rewrite lookup_insert_ne.
Qed.

(** *** Lookup by name *)

Lemma getRoute_found name st r :
  find (λ r, bool_decide (r_name r = name)) (routes st) = Some r →
  getRoute name st = (st, Ok r).
Proof. rewrite getRoute_run. by intros ->. Qed.

Lemma getRoute_present name st :
  name ∈ r_name <$> routes st → ∃ r, getRoute name st = (st, Ok r) ∧ r_name r = name.
Proof.
  intros (r & -> & Hr)%list_elem_of_fmap.
  destruct (find (λ r', bool_decide (r_name r' = r_name r)) (routes st)) as [r'|] eqn:Hf.
  - exists r'. split; [by apply getRoute_found|].
    apply find_first in Hf as (_ & _ & Hn & _). by apply bool_decide_eq_true in Hn.
  - rewrite find_absent in Hf. specialize (Hf r Hr).
    by apply bool_decide_eq_false in Hf.
Qed.

Lemma getRoute_absent name st :
  name ∉ r_name <$> routes st →
  find (λ r, bool_decide (r_name r = name)) (routes st) = None.
Proof.
  intros Hn. apply find_absent. intros r Hr. apply bool_decide_eq_false.
  intros <-. apply Hn. apply list_elem_of_fmap. eauto.
Qed.

Lemma getRoute_ok name st st' r :
  getRoute name st = (st', Ok r) →
  st' = st ∧ find (λ r, bool_decide (r_name r = name)) (routes st) = Some r.
Proof.
  rewrite getRoute_run. destruct (find _ (routes st)) as [r'|]; [|discriminate].
  by intros [= <- <-].
Qed.

(** *** Listeners *)

Lemma how_often_app l (c1 c2 : list invocation) :
  how_often l (c1 ++ c2) = how_often l c1 + how_often l c2.
Proof. unfold how_often. by rewrite filter_app, length_app. Qed.

Lemma how_often_fan_out l st (active : option route) n (ls : list listener) :
  how_often l (fan_out st active n ls) = length (filter (λ x, x = l) ls).
Proof.
  unfold how_often. destruct active as [r|]; simpl.
  - revert n. induction ls as [|x ls IH]; intros n; [done|].
    simpl. rewrite !filter_cons. simpl.
    assert (E : imap ((λ i l0, {| inv_listener := l0;
                                  inv_arg := Some (copy_of st r (n + i)) |}) ∘ S) ls
              = imap (λ i l0, {| inv_listener := l0;
                                 inv_arg := Some (copy_of st r (S n + i)) |}) ls).
    { apply imap_ext. intros i y _. simpl.
      by replace (n + S i) with (S (n + i)) by lia. }
    rewrite E. specialize (IH (S n)).
    destruct (decide (x = l)); simpl in *; by rewrite IH.
  - induction ls as [|x ls IH]; [done|].
    rewrite fmap_cons, !filter_cons. simpl.
    destruct (decide (x = l)); simpl in *; by rewrite IH.
Qed.

Lemma once_in_NoDup (l : listener) (ls : list listener) :
  NoDup ls →
  length (filter (λ x, x = l) ls) = if bool_decide (l ∈ ls) then 1 else 0.
Proof.
  induction 1 as [|x ls Hx Hnd IH]; [done|].
  rewrite filter_cons. destruct (decide (x = l)) as [->|Hne]; simpl.
  - rewrite bool_decide_eq_true_2 by left.
    rewrite IH, bool_decide_eq_false_2; done.
  - rewrite IH. apply (f_equal (λ b : bool, if b then 1 else 0)).
    apply bool_decide_ext. rewrite elem_of_cons.
    split; [by right|]. intros [E|E]; [by subst|exact E].
Qed.

Lemma run_listeners_NoDup o st : NoDup (listeners st) → NoDup (listeners (run o st)).
Proof.
  intros Hnd.
  destruct (run_shape o st) as [->|[[h ->]|[[h ->]|[[l ->]|[l ->]]]]]; try done.
  - rewrite listen_state. destruct (bool_decide (l ∈ listeners st)) eqn:Hl; [done|].
    simpl. apply bool_decide_eq_false in Hl.
    apply NoDup_app. split_and!; [done| |apply NoDup_singleton].
    intros x Hx ->%list_elem_of_singleton. done.
  - simpl. by apply NoDup_filter.
Qed.

Lemma reachable_listeners_NoDup st0 st :
  NoDup (listeners st0) → reachable st0 st → NoDup (listeners st).
Proof. intros H0. induction 1; [done|]. by apply run_listeners_NoDup. Qed.

(** *** Identities *)

Lemma refs_of_app (c1 c2 : list invocation) :
  refs_of (c1 ++ c2) = refs_of c1 ++ refs_of c2.
Proof. unfold refs_of. apply omap_app. Qed.

Lemma refs_of_fan_out st (active : option route) n (ls : list listener) :
  refs_of (fan_out st active n ls) = seq n (allocated active ls).
Proof.
  unfold refs_of. destruct active as [r|]; simpl.
  - revert n. induction ls as [|x ls IH]; intros n; [done|].
    simpl. rewrite Nat.add_0_r. f_equal. rewrite <- (IH (S n)). f_equal.
    apply imap_ext. intros i y _. simpl.
    by replace (n + S i) with (S (n + i)) by lia.
  - induction ls as [|x ls IH]; [done|]. by rewrite fmap_cons.
Qed.

Lemma refs_in_order_notified st : refs_in_order st → refs_in_order (notified st).
Proof.
  intros (Hnd & Hb & Hr & Hl). unfold refs_in_order, notified. simpl.
  rewrite refs_of_app, refs_of_fan_out. split_and!.
  - apply NoDup_app. split_and!; [done| |apply NoDup_seq].
    intros n Hn Hs. apply elem_of_seq in Hs. specialize (Hb n Hn). lia.
  - intros n [Hn|Hn]%elem_of_app.
    + specialize (Hb n Hn). lia.
    + apply elem_of_seq in Hn. lia.
  - done.
  - lia.
Qed.

Lemma refs_in_order_run o st : refs_in_order st → refs_in_order (run o st).
Proof.
  intros H.
  destruct (run_shape o st) as [->|[[h ->]|[[h ->]|[[l ->]|[l ->]]]]]; try done.
  - by apply (refs_in_order_notified (set_hist h st)).
  - rewrite listen_state. by destruct (bool_decide _).
Qed.

Lemma refs_in_order_created config b init st0 :
  createRouter config b init = Ok st0 → refs_in_order st0.
Proof.
  intros Hc. destruct (createRouter_routes _ _ _ _ Hc) as (Hr & _ & _ & Hcalls & Hn & _).
  unfold refs_in_order. rewrite Hcalls, Hn. simpl. split_and!.
  - apply NoDup_nil_2.
  - intros n Hx. by apply elem_of_nil in Hx.
  - intros i r Hi.
    by destruct (compile_routes_entries _ _ _ _ Hr i r Hi) as (? & ? & _ & _ & _ & ->).
  - done.
Qed.

Lemma refs_in_order_reachable st0 st :
  refs_in_order st0 → reachable st0 st → refs_in_order st.
Proof. intros H0. induction 1; [done|]. by apply refs_in_order_run. Qed.

(** *** Cutting a URL at its question mark *)

Lemma before_first_cons (c a : ascii) (s : string) :
  before_first c (String a s)
  = if bool_decide (a = c) then "" else String a (before_first c s).
Proof.
  unfold before_first. simpl. destruct (bool_decide (a = c)); [done|].
  by destruct (split_on c s).
Qed.

Lemma before_first_whole (c : ascii) (s : string) :
  after_first c s = None → before_first c s = s.
Proof.
  induction s as [|a s IH]; [done|]. simpl. rewrite before_first_cons.
  destruct (bool_decide (a = c)); [discriminate|]. intros H. by rewrite IH.
Qed.



Lemma find_at {A} (f : A → bool) (l : list A) (i : nat) (x : A) :
  l !! i = Some x → f x = true →
  (∀ j y, (j < i)%nat → l !! j = Some y → f y = false) →
  find f l = Some x.
Proof.
  revert i. induction l as [|a l IH]; intros i Hi Hx Hlt; [done|].
  destruct i as [|i]; simpl in *.
  - injection Hi as ->. by rewrite Hx.
  - rewrite (Hlt 0 a) by (done || lia).
    apply (IH i); [done..|]. intros j y Hj Hy. apply (Hlt (S j)); [lia|done].
Qed.

(** *** Mounting *)



End Facts.

(** ** The properties of the specification *)

Section Properties.
Context {Path : Type} {PM : PathMatcher Path} {QC : QueryCodec}
  {LS : LocationStore}.

Local Abbreviation route := (route Path).
Local Abbreviation resolved := (resolved Path).
Local Abbreviation invocation := (invocation Path).
Local Abbreviation router := (router Path).

Implicit Types (st : router) (r : route).


(** C2. [splitParams] yields two disjoint mappings: a key with a defined
    value that the matcher names is in the path bucket only, with its value;
    a key with a defined value that the matcher does not name is in the
    query bucket only, with its value; a key whose value is [undefined], or
    that is absent, is in neither. *)
Theorem splitParams_partition r (params : option (gmap string (option string))) :
  dom (splitParams r params).1 ## dom (splitParams r params).2 ∧
  ∀ k : string,
    (∀ v, default ∅ params !! k = Some (Some v) →
          k ∈ path_params (r_path r) →
          (splitParams r params).1 !! k = Some v ∧
          (splitParams r params).2 !! k = None) ∧
    (∀ v, default ∅ params !! k = Some (Some v) →
          k ∉ path_params (r_path r) →
          (splitParams r params).2 !! k = Some v ∧
          (splitParams r params).1 !! k = None) ∧
    (default ∅ params !! k = Some None ∨ default ∅ params !! k = None →
          (splitParams r params).1 !! k = None ∧
          (splitParams r params).2 !! k = None).
Proof.
  split.
  - apply elem_of_disjoint. intros k [v1 H1]%elem_of_dom [v2 H2]%elem_of_dom.
    destruct (splitParams_lookup r params k) as [E1 E2].
    rewrite E1 in H1. rewrite E2 in H2.
    by destruct (bool_decide (k ∈ path_params (r_path r))).
  - intros k. destruct (splitParams_lookup r params k) as [-> ->].
    split_and!.
    + intros v -> Hk. by rewrite bool_decide_eq_true_2.
    + intros v -> Hk. by rewrite bool_decide_eq_false_2.
    + intros [-> | ->]; by destruct (bool_decide _).
Qed.

(** C4. [setQuery] calls no listener, and a replace event whose state
    carries the query-only marker makes [notify] return at once, the router
    untouched (no route resolved, no copy made, no listener called); a
    [push] or a [replace] that returns has called every registered listener
    exactly once, and no other. *)
Theorem setQuery_calls_no_listener (config : list (string * string))
    (b : option string) (init : location) st0 st :
  createRouter config b init = Ok st0 →
  reachable st0 st →
  (∀ key value, ∃ st',
     setQuery key value st = (st', Ok tt) ∧
     calls st' = calls st ∧ next_ref st' = next_ref st ∧
     listeners st' = listeners st) ∧
  (∀ u, u_action u = Replace → state_isQueryUpdate (u_location u) = true →
     notify u st = (st, Ok tt)) ∧
  (∀ name params st',
     push name params st = (st', Ok tt) ∨ replace name params st = (st', Ok tt) →
     ∀ l, how_often l (calls st')
          = how_often l (calls st) + (if bool_decide (l ∈ listeners st) then 1 else 0)).
Proof.
  intros Hcreate Hreach.
  assert (Hnd : NoDup (listeners st)).
  { eapply reachable_listeners_NoDup; [|exact Hreach].
    destruct (createRouter_routes _ _ _ _ Hcreate) as (_ & _ & -> & _).
    apply NoDup_nil_2. }
  split_and!.
  - intros key value. rewrite setQuery_run. eexists. split; [done|]. done.
  - intros u Ha Hs. rewrite notify_run. unfold suppressed.
    by rewrite Ha, Hs, bool_decide_eq_true_2.
  - intros name params st' H l.
    assert (∃ a t, st' = notified (moved a t None st)) as (a & t & ->).
    { destruct H as [H|H].
      - rewrite push_run in H. destruct (prepared name params st) as [[x q]|e];
          [|discriminate]. injection H as <-. eauto.
      - rewrite replace_run in H. destruct (prepared name params st) as [[x q]|e];
          [|discriminate]. injection H as <-. eauto. }
    simpl. rewrite how_often_app, how_often_fan_out. f_equal.
    by apply once_in_NoDup.
Qed.

(** C5. For a name of the table, [url] returns the built path alone when the
    query bucket is empty and the built path, [?] and the encoded query when
    it is not; with an empty bucket the result is not the built path with a
    [?] after it. The state is untouched. When the matcher cannot build the
    path, [url] throws what the matcher threw. The codec is one that encodes
    the empty mapping, and no other, as the empty string. *)
Theorem url_format name (params : option (gmap string (option string))) st :
  name ∈ r_name <$> routes st →
  (∀ q : gmap string string, qs_stringify (qstrings q) = "" ↔ q = ∅) →
  ∃ r, getRoute name st = (st, Ok r) ∧ r_name r = name ∧
    match path_build (r_path r) (splitParams r params).1 with
    | Ok built =>
        ((splitParams r params).2 = ∅ →
           url name params st = (st, Ok built) ∧
           url name params st ≠ (st, Ok (built +:+ "?"))) ∧
        ((splitParams r params).2 ≠ ∅ →
           url name params st
           = (st, Ok (built +:+ "?" +:+
                      qs_stringify (qstrings (splitParams r params).2))))
    | Throw e => url name params st = (st, Throw e)
    end.
Proof.
  intros Hname Hcodec.
  destruct (getRoute_present _ _ Hname) as (r & Hr & Hn).
  exists r. split_and!; [done..|].
  rewrite url_run. unfold prepared.
  destruct (getRoute_ok _ _ _ _ Hr) as [_ ->].
  destruct (path_build (r_path r) (splitParams r params).1) as [built|e]; [|done].
  split.
  - intros He. apply Hcodec in He as Hs. rewrite Hs. simpl. split; [done|].
    intros [= E]. apply (f_equal String.length) in E.
    rewrite string_app_length in E. simpl in E. lia.
  - intros Hne. destruct (truthy _) eqn:Ht; [done|].
    apply truthy_false in Ht. by apply Hcodec in Ht.
Qed.

(** C6. Reading [current] never throws and leaves the router as it is; its
    value is the absence value exactly when no route of the table accepts
    the store's pathname. In particular, after the user has moved to a
    location that no route accepts, [current] is the absence value. *)
Theorem current_never_throws st :
  ∃ res, current st = (st, Ok res) ∧
    (res = None ↔
       ∀ r, r ∈ routes st → path_test (r_path r) (current_pathname st) = None) ∧
    ∀ l : location,
      (∀ r, r ∈ routes st → path_test (r_path r) (loc_pathname l) = None) →
      (current (run (OPop l) st)).2 = Ok None.
Proof.
  exists (matchPath (routes st) (current_pathname st)).
  split_and!; [done|apply matchPath_none|].
  intros l Hl. simpl. rewrite history_pop_run. simpl.
  unfold current, getActiveRoute, gets. simpl. f_equal.
  by apply matchPath_none.
Qed.

(** C7. With a name that no route of the table bears, [url], [push] and
    [replace] throw the lookup error and leave the whole router as it was:
    same table, same listeners, same location, no navigation and no
    listener call. *)
Theorem unknown_name_throws name (params : option (gmap string (option string))) st :
  name ∉ r_name <$> routes st →
  url name params st = (st, Throw (Error ("Can not find route for " +:+ name))) ∧
  push name params st = (st, Throw (Error ("Can not find route for " +:+ name))) ∧
  replace name params st = (st, Throw (Error ("Can not find route for " +:+ name))).
Proof.
  intros Hn. apply getRoute_absent in Hn.
  rewrite url_run, push_run, replace_run. unfold prepared. by rewrite Hn.
Qed.


(** C9, as amended. Every argument that a listener has ever received is a
    copy with an identity of its own: no two of them share one, and none
    shares one with a route of the table. [current] makes no copy: it
    returns a route of the table itself and changes nothing, so that a
    second read returns the very same object. *)
Theorem listeners_get_fresh_copies (config : list (string * string))
    (b : option string) (init : location) st0 st :
  createRouter config b init = Ok st0 →
  reachable st0 st →
  NoDup (refs_of (calls st)) ∧
  (∀ n r, n ∈ refs_of (calls st) → r ∈ routes st → r_ref r ≠ n) ∧
  ∃ res, current st = (st, Ok res) ∧
    (∀ r, res = Some r → r ∈ routes st) ∧
    ∀ st1 st2 r1 r2,
      current st = (st1, Ok (Some r1)) → current st1 = (st2, Ok (Some r2)) →
      r_ref r1 = r_ref r2 ∧ next_ref st2 = next_ref st.
Proof.
  intros Hcreate Hreach.
  destruct (refs_in_order_reachable _ _ (refs_in_order_created _ _ _ _ Hcreate) Hreach)
    as (Hnd & Hb & Hr & Hl).
  split_and!; [exact Hnd| |].
  - intros n r Hn [i Hi]%list_elem_of_lookup. rewrite (Hr i r Hi).
    apply lookup_lt_Some in Hi. specialize (Hb n Hn). lia.
  - exists (matchPath (routes st) (current_pathname st)). split_and!; [done| |].
    + intros r Hm. destruct (matchPath_accepts _ _ _ Hm) as (i & _ & Hi & _).
      apply list_elem_of_lookup. eauto.
    + intros st1 st2 r1 r2 [= <- H1] [= <- H2]. split; [congruence|done].
Qed.

(** C10. [setQuery] makes exactly one call to the store: a replace, marked
    as a query-only update, of the pathname as it stands and of the search
    string made of [?] and the serialization of the updated mapping (the
    parsed search with [key] set to the value, or removed when the value is
    [undefined]). Unsetting the only key there is gives the search string
    [?], for a codec that serializes the empty mapping as the empty
    string. *)
Theorem setQuery_search key (value : option string) st :
  ∃ st' (m' : gmap string qvalue),
    setQuery key value st = (st', Ok tt) ∧
    (∀ k, m' !! k = if bool_decide (k = key) then QStr <$> value
                    else qs_parse (current_search st) !! k) ∧
    h_calls (hist st')
    = h_calls (hist st) ++
        [{| nc_action := Replace;
            nc_to := {| to_pathname := current_pathname st;
                        to_search := "?" +:+ qs_stringify m' |};
            nc_state := Some {| isQueryUpdate := true |} |}] ∧
    (value = None → dom (qs_parse (current_search st)) ⊆ {[key]} →
     qs_stringify ∅ = "" →
     h_calls (hist st')
     = h_calls (hist st) ++
         [{| nc_action := Replace;
             nc_to := {| to_pathname := current_pathname st; to_search := "?" |};
             nc_state := Some {| isQueryUpdate := true |} |}]).
Proof.
  rewrite setQuery_run.
  exists (moved Replace (query_target key value st)
            (Some {| isQueryUpdate := true |}) st),
         (updated_query (qs_parse (current_search st)) key value).
  split_and!; [done| |done|].
  - intros k. unfold updated_query. destruct value as [v|]; simpl.
    + rewrite lookup_insert. destruct (decide (key = k)) as [->|Hne].
      * by rewrite bool_decide_eq_true_2.
      * by rewrite bool_decide_eq_false_2.
    + rewrite lookup_delete. destruct (decide (key = k)) as [->|Hne].
      * by rewrite bool_decide_eq_true_2.
      * by rewrite bool_decide_eq_false_2.
  - intros -> Hdom Hempty.
    assert (E : delete key (qs_parse (current_search st)) = ∅).
    { apply map_eq. intros k. rewrite lookup_empty.
      destruct (decide (k = key)) as [->|Hne]; [apply lookup_delete_eq|].
      rewrite lookup_delete_ne by done. apply not_elem_of_dom.
      intros Hk. apply Hdom in Hk. by apply elem_of_singleton in Hk. }
    unfold moved, query_target, updated_query. by rewrite E, Hempty.
Qed.

End Properties.

(** ** The collaborators the routers above run on *)

Lemma join_empty (sep x : string) (l : list string) :
  join sep (x :: l) = "" → x = "".
Proof.
  destruct l as [|y l]; simpl; [done|]. intros H.
  apply (f_equal String.length) in H. rewrite string_app_length in H.
  destruct x; [done|]. simpl in H. lia.
Qed.

(** The plain codec serializes the empty mapping of strings, and no other,
    as the empty string. *)
Lemma plain_stringify_empty (q : gmap string string) :
  PlainQuery.stringify (qstrings q) = "" ↔ q = ∅.
Proof.
  unfold PlainQuery.stringify, qstrings. split.
  - intros H. apply (fmap_empty_inv QStr). apply map_to_list_empty_iff.
    destruct (map_to_list (QStr <$> q)) as [|[k v] l] eqn:El; [done|].
    exfalso.
    assert (Hv : (QStr <$> q) !! k = Some v).
    { apply elem_of_map_to_list. rewrite El. left. }
    rewrite lookup_fmap in Hv. apply fmap_Some in Hv as (x & _ & ->).
    rewrite fmap_cons in H. rewrite filter_cons_True in H.
    + apply join_empty in H. apply (f_equal String.length) in H.
      unfold PlainQuery.entry_string, PlainQuery.pair_string in H. simpl in H.
      rewrite !string_app_length in H. simpl in H. lia.
    + unfold PlainQuery.entry_string, PlainQuery.pair_string. simpl.
      intros H'. apply (f_equal String.length) in H'.
      rewrite !string_app_length in H'. simpl in H'. lia.
  - intros ->. by rewrite fmap_empty, map_to_list_empty.
Qed.

(** ** The properties on the routers above *)

Section Checks.
Local Existing Instance Segments.matcher.
Local Existing Instance PlainQuery.codec.
Local Existing Instance Browser.store.


Lemma readme_router_created :
  createRouter readme_config None home = Ok readme_router.
Proof. vm_compute. reflexivity. Qed.

Lemma specific_router_created :
  createRouter specific_first None home = Ok specific_router.
Proof. vm_compute. reflexivity. Qed.



(** C2 on [{ id: '7', sort: 'asc', page: undefined }] for [/items/:id]. *)
Lemma splitParams_partition_witness :
  ((splitParams item_route item_values).1 !! "id" = Some "7" ∧
   (splitParams item_route item_values).2 !! "id" = None) ∧
  ((splitParams item_route item_values).2 !! "sort" = Some "asc" ∧
   (splitParams item_route item_values).1 !! "sort" = None) ∧
  ((splitParams item_route item_values).1 !! "page" = None ∧
   (splitParams item_route item_values).2 !! "page" = None).
Proof.
  destruct (splitParams_partition item_route item_values) as [_ H].
  split; [|split].
  - destruct (H "id") as (Hid & _ & _).
    apply (Hid "7"); [vm_compute; reflexivity|].
    apply (bool_decide_unpack _). by vm_compute.
  - destruct (H "sort") as (_ & Hsort & _).
    apply (Hsort "asc"); [vm_compute; reflexivity|].
    apply (bool_decide_unpack _). by vm_compute.
  - destruct (H "page") as (_ & _ & Hpage). apply Hpage. left.
    vm_compute. reflexivity.
Defined.



(** C4 with one listener: [push] calls it once, [setQuery] does not. *)
Lemma setQuery_calls_no_listener_witness :
  createRouter readme_config None home = Ok readme_router ∧
  reachable readme_router (run (OListen 7) readme_router) ∧
  listeners (run (OListen 7) readme_router) = [7] ∧
  (∃ st', push "items" None (run (OListen 7) readme_router) = (st', Ok tt) ∧
     how_often 7 (calls st')
     = how_often 7 (calls (run (OListen 7) readme_router)) + 1) ∧
  (∃ st', setQuery "page" (Some "2") (run (OListen 7) readme_router) = (st', Ok tt) ∧
     calls st' = calls (run (OListen 7) readme_router)).
Proof.
  pose proof readme_router_created as Hc.
  pose proof (reachable_run _ (OListen 7) _ (reachable_start readme_router)) as Hr.
  split; [exact Hc|]. split; [exact Hr|]. split; [vm_compute; reflexivity|].
  destruct (setQuery_calls_no_listener _ _ _ _ _ Hc Hr) as (Hs & _ & Hp).
  split.
  - exists (push "items" None (run (OListen 7) readme_router)).1.
    assert (E : push "items" None (run (OListen 7) readme_router)
                = ((push "items" None (run (OListen 7) readme_router)).1, Ok tt))
      by (vm_compute; reflexivity).
    split; [exact E|]. exact (Hp "items" None _ (or_introl E) 7).
  - destruct (Hs "page" (Some "2")) as (st' & E & Hcalls & _). eauto.
Defined.

(** C5 on the plain codec. *)
Lemma url_format_witness :
  "items" ∈ (r_name <$> routes readme_router) ∧
  ∃ r, getRoute "items" readme_router = (readme_router, Ok r) ∧
    url "items" None readme_router = (readme_router, Ok "/items") ∧
    url "items" (Some {[ "page" := Some "1" ]}) readme_router
    = (readme_router, Ok "/items?page=1").
Proof.
  assert (Hin : "items" ∈ (r_name <$> routes readme_router))
    by (apply (bool_decide_unpack _); by vm_compute).
  split; [exact Hin|].
  destruct (url_format (QC := PlainQuery.codec) "items" None readme_router Hin
              plain_stringify_empty)
    as (r & Hr & _ & _).
  exists r. split_and!; [exact Hr|vm_compute; reflexivity..].
Defined.

(** C6 after a move to a location that no route of the README accepts. *)
Lemma current_never_throws_witness :
  (current (run (OPop at_app_items) readme_router)).2 = Ok None.
Proof.
  destruct (current_never_throws readme_router) as (res & _ & _ & H).
  apply H. intros r Hr. apply list_elem_of_In in Hr. simpl in Hr.
  destruct Hr as [<-|[<-|[<-|[<-|[]]]]]; vm_compute; reflexivity.
Defined.

(** C7 on the configuration of the README. *)
Lemma unknown_name_throws_witness :
  ("nowhere" ∉ (r_name <$> routes readme_router)) ∧
  push "nowhere" None readme_router
  = (readme_router, Throw (Error "Can not find route for nowhere")).
Proof.
  assert (Hout : "nowhere" ∉ (r_name <$> routes readme_router))
    by (apply (bool_decide_unpack _); by vm_compute).
  split; [exact Hout|].
  destruct (unknown_name_throws "nowhere" None readme_router Hout) as (_ & H & _).
  exact H.
Defined.

(** C9 as stated fails: two reads of [current] in a row return the same
    object, the route of the table. *)
Lemma current_returns_the_table_route :
  createRouter readme_config None home = Ok readme_router ∧
  ∃ r, routes readme_router !! 0 = Some r ∧
    current readme_router = (readme_router, Ok (Some r)) ∧
    current (current readme_router).1 = (readme_router, Ok (Some r)).
Proof.
  split; [exact readme_router_created|].
  eexists. split_and!; vm_compute; reflexivity.
Qed.

(** C9 as amended, after two listeners were added and two navigations to
    the same route made: four copies, four identities. *)
Lemma listeners_get_fresh_copies_witness :
  createRouter readme_config None home = Ok readme_router ∧
  reachable readme_router
    (run (OPush "items" None)
       (run (OPush "items" None) (run (OListen 8) (run (OListen 7) readme_router)))) ∧
  refs_of (calls
    (run (OPush "items" None)
       (run (OPush "items" None) (run (OListen 8) (run (OListen 7) readme_router)))))
  = [4; 5; 6; 7] ∧
  NoDup (refs_of (calls
    (run (OPush "items" None)
       (run (OPush "items" None) (run (OListen 8) (run (OListen 7) readme_router)))))).
Proof.
  pose proof readme_router_created as Hc.
  assert (Hr : reachable readme_router
    (run (OPush "items" None)
       (run (OPush "items" None) (run (OListen 8) (run (OListen 7) readme_router)))))
    by (do 4 apply reachable_run; apply reachable_start).
  split; [exact Hc|]. split; [exact Hr|]. split; [vm_compute; reflexivity|].
  by destruct (listeners_get_fresh_copies _ _ _ _ _ Hc Hr) as (H & _).
Defined.

(** C10 on [/?foo=bar]: unsetting [foo] replaces the search string by [?]. *)
Lemma setQuery_search_witness :
  ∃ st', setQuery "foo" None (new_router readme_routes None at_foo_bar) = (st', Ok tt) ∧
    h_calls (hist st')
    = [{| nc_action := Replace;
          nc_to := {| to_pathname := "/"; to_search := "?" |};
          nc_state := Some {| isQueryUpdate := true |} |}].
Proof.
  destruct (setQuery_search "foo" None (new_router readme_routes None at_foo_bar))
    as (st' & m' & Hs & _ & _ & H).
  exists st'. split; [exact Hs|]. apply H.
  - reflexivity.
  - apply (bool_decide_unpack _). by vm_compute.
  - vm_compute. reflexivity.
Defined.

End Checks.

(** ** Further properties of the router *)

Section More.
Context {Path : Type} {PM : PathMatcher Path} {QC : QueryCodec}
  {LS : LocationStore}.

Local Abbreviation route := (route Path).
Local Abbreviation resolved := (resolved Path).
Local Abbreviation invocation := (invocation Path).
Local Abbreviation router := (router Path).

Implicit Types (st : router) (r : route) (l : listener).

(** *** The listener set *)

(** X1. [listeners] is a set: registering a listener that is registered
    changes nothing, so registering twice is registering once; a new
    listener goes after the ones already there. *)
Theorem listen_twice_is_once l st :
  (l ∈ listeners st → listen l st = (st, Ok tt)) ∧
  (l ∉ listeners st → listeners (listen l st).1 = listeners st ++ [l]) ∧
  l ∈ listeners (listen l st).1 ∧
  listen l (listen l st).1 = ((listen l st).1, Ok tt).
Proof.
  assert (Hin : l ∈ listeners (listen l st).1).
  { rewrite listen_state. destruct (bool_decide (l ∈ listeners st)) eqn:E.
    - by apply bool_decide_eq_true in E.
    - simpl. apply elem_of_app. right. by left. }
  split_and!.
  - intros H. unfold listen, modify. by rewrite bool_decide_eq_true_2.
  - intros H. rewrite listen_state. by rewrite bool_decide_eq_false_2.
  - exact Hin.
  - unfold listen at 1, modify. by rewrite bool_decide_eq_true_2.
Qed.

(** X2. The function that [listen] returns removes its listener and no
    other, keeps the others in their order, does nothing when called again,
    and takes the router back to where it was before a [listen] that had
    added the listener. *)
Theorem dispose_removes_only_its_listener l st :
  (l ∉ listeners (dispose l st).1) ∧
  (∀ l', l' ≠ l → l' ∈ listeners (dispose l st).1 ↔ l' ∈ listeners st) ∧
  listeners (dispose l st).1 `sublist_of` listeners st ∧
  dispose l (dispose l st).1 = ((dispose l st).1, Ok tt) ∧
  (l ∉ listeners st → dispose l (listen l st).1 = (st, Ok tt)).
Proof.
  assert (Hkeep : ∀ ls : list listener, l ∉ ls → filter (λ l', l' ≠ l) ls = ls).
  { intros ls Hl. induction ls as [|x ls IH]; [done|].
    apply not_elem_of_cons in Hl as [Hx Hl].
    rewrite filter_cons_True by done. by rewrite IH. }
  assert (Hout : l ∉ filter (λ l', l' ≠ l) (listeners st)).
  { intros [H _]%list_elem_of_filter. done. }
  split_and!.
  - exact Hout.
  - intros l' Hne. simpl. rewrite list_elem_of_filter.
    split; [by intros [_ H]|by intros H].
  - simpl. apply sublist_filter.
  - unfold dispose, modify. simpl. f_equal.
    apply router_eq; simpl; try done. by apply Hkeep.
  - intros Hl. rewrite listen_state, bool_decide_eq_false_2 by done.
    unfold dispose, modify. simpl. f_equal.
    apply router_eq; simpl; try done.
    rewrite filter_app, Hkeep by done.
    rewrite filter_cons_False by (intros H; by apply H). by rewrite app_nil_r.
Qed.

Lemma no_call_of_absent l (new : list invocation) :
  (∀ c, c ∈ new → inv_listener c ≠ l) → how_often l new = 0.
Proof.
  unfold how_often. induction new as [|c new IH]; intros H; [done|].
  rewrite filter_cons_False by (apply H; left).
  apply IH. intros c' Hc'. apply H. by right.
Qed.

Lemma fan_out_listener st (active : option route) n (ls : list listener) c :
  c ∈ fan_out st active n ls → inv_listener c ∈ ls.
Proof.
  unfold fan_out. destruct active as [r|].
  - intros (i & x & -> & Hx)%elem_of_lookup_imap. simpl.
    apply list_elem_of_lookup. eauto.
  - intros (x & -> & Hx)%list_elem_of_fmap. done.
Qed.

(** Whatever the operation, the calls it makes are added after those made
    before, and go to listeners that were registered when it started. *)
Lemma run_calls o st :
  ∃ new, calls (run o st) = calls st ++ new ∧
         ∀ c, c ∈ new → inv_listener c ∈ listeners st.
Proof.
  destruct (run_shape o st) as [->|[[h ->]|[[h ->]|[[l ->]|[l ->]]]]].
  - exists []. split; [by rewrite app_nil_r|]. intros c Hc. by apply elem_of_nil in Hc.
  - exists []. split; [by rewrite app_nil_r|]. intros c Hc. by apply elem_of_nil in Hc.
  - eexists. split; [reflexivity|]. intros c Hc. by apply fan_out_listener in Hc.
  - exists []. split.
    + rewrite listen_state, app_nil_r. by destruct (bool_decide _).
    + intros c Hc. by apply elem_of_nil in Hc.
  - exists []. split; [by rewrite app_nil_r|]. intros c Hc. by apply elem_of_nil in Hc.
Qed.

Lemma run_keeps_absent o l st :
  o ≠ OListen l → l ∉ listeners st → l ∉ listeners (run o st).
Proof.
  intros Ho Hl. destruct o as [n p|n p|n p|k v|l0|l0| | | |loc]; simpl.
  - by rewrite url_run.
  - rewrite push_run. by destruct (prepared n p st) as [[a q]|e].
  - rewrite replace_run. by destruct (prepared n p st) as [[a q]|e].
  - by rewrite setQuery_run.
  - destruct (bool_decide (l0 ∈ listeners st)); [done|]. simpl.
    intros [H|H%list_elem_of_singleton]%elem_of_app; [done|]. congruence.
  - intros [_ H]%list_elem_of_filter. done.
  - done.
  - done.
  - done.
  - by rewrite history_pop_run.
Qed.

(** X3. Once its disposer has run, a listener is not called again, whatever
    is done with the router, until it is registered again. *)
Theorem disposed_listener_is_not_called l st (ops : list op) :
  OListen l ∉ ops →
  how_often l (calls (foldl (λ s o, run o s) (dispose l st).1 ops))
  = how_often l (calls st).
Proof.
  intros Hops.
  assert (Hgen : ∀ s, l ∉ listeners s →
            how_often l (calls (foldl (λ s o, run o s) s ops)) = how_often l (calls s)).
  { induction ops as [|o ops IH]; intros s Hs; [done|].
    apply not_elem_of_cons in Hops as [Ho Hops]. simpl.
    rewrite (IH Hops) by (apply run_keeps_absent; [congruence|done]).
    destruct (run_calls o s) as (new & -> & Hnew).
    rewrite how_often_app, (no_call_of_absent l new); [lia|].
    intros c Hc <-. by apply Hs, Hnew. }
  rewrite Hgen; [done|].
  simpl. intros [H _]%list_elem_of_filter. done.
Qed.

(** *** Notification *)

Lemma fan_out_listeners st (active : option route) n (ls : list listener) :
  inv_listener <$> fan_out st active n ls = ls.
Proof.
  unfold fan_out. destruct active as [r|].
  - revert n. induction ls as [|x ls IH]; intros n; [done|].
    simpl. f_equal. rewrite <- (IH (S n)) at 2. f_equal.
    apply imap_ext. intros i y _. simpl.
    by replace (n + S i) with (S (n + i)) by lia.
  - rewrite <- list_fmap_compose. simpl. apply list_fmap_id.
Qed.

Lemma fan_out_argument st (active : option route) n (ls : list listener) c :
  c ∈ fan_out st active n ls →
  match active with
  | Some r => ∃ k, inv_arg c = Some (copy_of st r k)
  | None => inv_arg c = None
  end.
Proof.
  unfold fan_out. destruct active as [r|].
  - intros (i & x & -> & Hx)%elem_of_lookup_imap. simpl. eauto.
  - intros (x & -> & Hx)%list_elem_of_fmap. done.
Qed.

(** X4. [notify] holds back only for a replace that carries the marker: any
    other event, a back or forward move onto a marked entry too, makes it
    call every registered listener once, in the order of registration, and
    leaves the table, the store and the listener set as they are. *)
Theorem notify_passes_unless_marked_replace (u : update) st :
  u_action u ≠ Replace ∨ state_isQueryUpdate (u_location u) = false →
  ∃ st' new,
    notify u st = (st', Ok tt) ∧
    calls st' = calls st ++ new ∧
    inv_listener <$> new = listeners st ∧
    routes st' = routes st ∧ hist st' = hist st ∧ listeners st' = listeners st.
Proof.
  intros Hu. rewrite notify_run.
  assert (suppressed u = false) as ->.
  { unfold suppressed. destruct Hu as [H|H].
    - by rewrite bool_decide_eq_false_2.
    - rewrite H. apply andb_false_r. }
  eexists. eexists. split_and!; [reflexivity|reflexivity| |done..].
  apply fan_out_listeners.
Qed.

(** X5. What a listener is called with is what the router shows right
    after: [undefined] when [current] is [undefined]; otherwise a copy that
    bears the name and the matcher of the [current] route, its [params],
    the router's [queries] and the router's [pathname]. *)
Theorem listener_argument_is_current (u : update) st st' (new : list invocation) :
  notify u st = (st', Ok tt) →
  calls st' = calls st ++ new →
  ∀ c, c ∈ new →
    match inv_arg c with
    | None => current st' = (st', Ok None)
    | Some v =>
        ∃ r, current st' = (st', Ok (Some r)) ∧
          rs_name v = r_name r ∧ rs_path v = r_path r ∧
          rs_params v = route_params st' r ∧
          queries st' = (st', Ok (rs_queries v)) ∧
          pathname st' = (st', Ok (rs_pathname v))
    end.
Proof.
  rewrite notify_run. destruct (suppressed u).
  - intros [= <-] Hnew c Hc. apply (f_equal length) in Hnew.
    rewrite length_app in Hnew. destruct new; [by apply elem_of_nil in Hc|].
    simpl in Hnew. lia.
  - intros [= <-] Hnew c Hc. simpl in Hnew. apply app_inv_head in Hnew as <-.
    unfold current, getActiveRoute, queries, pathname, gets. simpl.
    unfold fan_out in Hc.
    change (current_pathname (notified st)) with (current_pathname st).
    change (current_search (notified st)) with (current_search st).
    destruct (matchPath (routes st) (current_pathname st)) as [r|].
    + apply elem_of_lookup_imap in Hc as (i & x & -> & Hx). simpl.
      exists r. by split_and!.
    + apply list_elem_of_fmap in Hc as (x & -> & Hx). done.
Qed.

(** *** Construction *)

Lemma compile_routes_outcome b (config : list (string * string)) n :
  match compile_routes b config n with
  | Ok rs =>
      ∀ name template, (name, template) ∈ config →
        ∃ p, newPath (mount b (before_first qmark template)) = Ok p
  | Throw e =>
      ∃ i name template,
        config !! i = Some (name, template) ∧
        newPath (mount b (before_first qmark template)) = Throw e ∧
        ∀ j nm t, j < i → config !! j = Some (nm, t) →
          ∃ p, newPath (mount b (before_first qmark t)) = Ok p
  end.
Proof.
  revert n. induction config as [|[name template] config IH]; intros n; simpl.
  - intros nm t H. by apply elem_of_nil in H.
  - destruct (newPath (mount b (before_first qmark template))) as [p|e] eqn:Hp.
    + specialize (IH (S n)).
      destruct (compile_routes b config (S n)) as [rs|e].
      * intros nm t [[= -> ->]|H]%elem_of_cons; eauto.
      * destruct IH as (i & nm & t & Hi & He & Hlt).
        exists (S i), nm, t. split_and!; [done..|].
        intros [|j] nm' t' Hj Hl; simpl in Hl.
        -- injection Hl as <- <-. eauto.
        -- apply (Hlt j nm' t'); [lia|done].
    + exists 0, name, template. split_and!; [done..|]. intros j nm t Hj. lia.
Qed.

(** X6. [createRouter] returns a router exactly when every template of the
    configuration compiles; otherwise it throws what the matcher threw for
    the first template that does not, and no router is returned. *)
Theorem createRouter_needs_every_template (config : list (string * string))
    (b : option string) (init : location) :
  match createRouter config b init with
  | Ok st =>
      ∀ name template, (name, template) ∈ config →
        ∃ p, newPath (mount (normalize_base b) (before_first qmark template)) = Ok p
  | Throw e =>
      ∃ i name template,
        config !! i = Some (name, template) ∧
        newPath (mount (normalize_base b) (before_first qmark template)) = Throw e ∧
        ∀ j nm t, j < i → config !! j = Some (nm, t) →
          ∃ p, newPath (mount (normalize_base b) (before_first qmark t)) = Ok p
  end.
Proof.
  unfold createRouter.
  pose proof (compile_routes_outcome (normalize_base b) config 0) as H.
  by destruct (compile_routes (normalize_base b) config 0).
Qed.

(** X7. A base without its leading slash is the base with it: the two
    configurations give the same router. *)
Theorem base_gets_leading_slash (config : list (string * string)) (s : string)
    (init : location) :
  s ≠ "" → lacks_leading_slash s = true →
  createRouter config (Some s) init = createRouter config (Some ("/" +:+ s)) init.
Proof.
  intros Hs Hl. unfold createRouter.
  assert (normalize_base (Some s) = Some ("/" +:+ s)) as ->.
  { unfold normalize_base. rewrite bool_decide_eq_false_2.
    - rewrite Hl. by destruct s.
    - intros ->. discriminate. }
  assert (normalize_base (Some ("/" +:+ s)) = Some ("/" +:+ s)) as ->; [|done].
  unfold normalize_base. rewrite bool_decide_eq_false_2.
  - rewrite andb_false_r. done.
  - intros [= E]. done.
Qed.

Lemma compile_routes_mount b1 b2 (config : list (string * string)) n :
  (∀ p, mount b1 p = mount b2 p) →
  compile_routes b1 config n = compile_routes b2 config n.
Proof.
  intros Hm. revert n.
  induction config as [|[name template] config IH]; intros n; simpl; [done|].
  by rewrite Hm, IH.
Qed.

(** X8. The base [/] is no base: the routes are those of the configuration
    without a base, the same templates fail, and [pathname] is the store's
    pathname whole. *)
Theorem base_slash_is_no_base (config : list (string * string)) (init : location) :
  match createRouter config None init with
  | Ok st =>
      createRouter config (Some "/") init
      = Ok {| routes := routes st; base := Some ""; hist := hist st;
              listeners := listeners st; next_ref := next_ref st;
              calls := calls st |}
  | Throw e => createRouter config (Some "/") init = Throw e
  end ∧
  ∀ st0 st, createRouter config (Some "/") init = Ok st0 → reachable st0 st →
    pathname st = (st, Ok (current_pathname st)).
Proof.
  assert (Hn : normalize_base (Some "/") = Some "") by done.
  assert (Hc : compile_routes (Some "") config 0 = compile_routes None config 0)
    by (by apply compile_routes_mount).
  split.
  - unfold createRouter. rewrite Hn, Hc. simpl.
    by destruct (compile_routes None config 0).
  - intros st0 st Hcreate Hreach.
    destruct (createRouter_routes _ _ _ _ Hcreate) as (_ & Hb & _).
    destruct (reachable_routes _ _ Hreach) as [_ Hb'].
    unfold pathname, gets. by rewrite Hb', Hb, Hn.
Qed.

Lemma after_first_before_first (c : ascii) (s : string) :
  after_first c (before_first c s) = None.
Proof.
  induction s as [|a s IH]; [done|]. rewrite before_first_cons.
  destruct (bool_decide (a = c)) eqn:E; [done|]. simpl. by rewrite E.
Qed.

(** X9. The query keys a template declares have no effect on the router:
    cutting every template at its first [?] beforehand gives the same
    router, or the same error. *)
Theorem declared_queries_change_nothing (config : list (string * string))
    (b : option string) (init : location) :
  createRouter (prod_map id (before_first qmark) <$> config) b init
  = createRouter config b init.
Proof.
  unfold createRouter.
  assert (H : ∀ n, compile_routes (normalize_base b)
                     (prod_map id (before_first qmark) <$> config) n
                   = compile_routes (normalize_base b) config n).
  { induction config as [|[name template] config IH]; intros n; simpl; [done|].
    rewrite (before_first_whole qmark (before_first qmark template))
      by apply after_first_before_first.
    by rewrite IH. }
  by rewrite H.
Qed.

(** X10. A name of the table being looked up among names that are all
    different, the route found is the one compiled from the entry of that
    name, in every state of the router. *)
Theorem getRoute_finds_the_entry (config : list (string * string))
    (b : option string) (init : location) st0 st (i : nat) (name template : string) :
  createRouter config b init = Ok st0 →
  reachable st0 st →
  NoDup config.*1 →
  config !! i = Some (name, template) →
  ∃ r, getRoute name st = (st, Ok r) ∧ routes st !! i = Some r ∧
    r_name r = name ∧
    newPath (mount (normalize_base b) (before_first qmark template)) = Ok (r_path r).
Proof.
  intros Hcreate Hreach Hnd Hi.
  destruct (createRouter_routes _ _ _ _ Hcreate) as (Hcompile & _).
  destruct (reachable_routes _ _ Hreach) as [Hroutes _].
  pose proof (compile_routes_names _ _ _ _ Hcompile) as Hnames.
  assert (Hname : (r_name <$> routes st0) !! i = Some name).
  { rewrite Hnames, list_lookup_fmap, Hi. done. }
  rewrite list_lookup_fmap in Hname.
  destruct (routes st0 !! i) as [r|] eqn:Hr; [|discriminate].
  injection Hname as Hname. exists r.
  destruct (compile_routes_entries _ _ _ _ Hcompile i r Hr)
    as (nm & t & Hc & _ & Hp & _).
  rewrite Hi in Hc. injection Hc as <- <-.
  rewrite Hroutes. split_and!; [|done..].
  rewrite getRoute_run. rewrite Hroutes.
  rewrite (find_at _ _ i r); [done|done|by apply bool_decide_eq_true|].
  intros j y Hj Hy. apply bool_decide_eq_false. intros Hyn.
  assert (Hjn : config.*1 !! j = Some name).
  { rewrite <- Hnames, list_lookup_fmap, Hy. simpl. by rewrite Hyn. }
  assert (Hin : config.*1 !! i = Some name).
  { rewrite list_lookup_fmap, Hi. done. }
  pose proof (NoDup_lookup _ _ _ _ Hnd Hjn Hin). lia.
Qed.

(** *** Navigation *)

(** X11. When the matcher cannot build the path, [url], [push] and
    [replace] throw what the matcher threw, before the store is touched:
    no navigation, no listener call, the router as it was. *)
Theorem build_error_stops_navigation name
    (params : option (gmap string (option string))) st r (e : exn) :
  getRoute name st = (st, Ok r) →
  path_build (r_path r) (splitParams r params).1 = Throw e →
  url name params st = (st, Throw e) ∧
  push name params st = (st, Throw e) ∧
  replace name params st = (st, Throw e).
Proof.
  intros Hr Hb. destruct (getRoute_ok _ _ _ _ Hr) as [_ Hf].
  rewrite url_run, push_run, replace_run. unfold prepared.
  by rewrite Hf, Hb.
Qed.

(** X12. A [push] or a [replace] that returns has called the store once,
    with its own action, the built path, the encoded query bucket as it
    comes out of the codec (no [?] put in front, unlike [setQuery]) and no
    state; the location is then the one the store reports for that target,
    with no state. *)
Theorem navigation_is_one_store_call name
    (params : option (gmap string (option string))) st st' (a : action) :
  (a = Push ∧ push name params st = (st', Ok tt)) ∨
  (a = Replace ∧ replace name params st = (st', Ok tt)) →
  ∃ r built,
    getRoute name st = (st, Ok r) ∧
    path_build (r_path r) (splitParams r params).1 = Ok built ∧
    h_calls (hist st')
    = h_calls (hist st) ++
        [{| nc_action := a;
            nc_to := {| to_pathname := built;
                        to_search := qs_stringify (qstrings (splitParams r params).2) |};
            nc_state := None |}] ∧
    h_location (hist st')
    = {| loc_pathname :=
           (store_locate {| to_pathname := built;
                            to_search := qs_stringify
                                           (qstrings (splitParams r params).2) |}).1;
         loc_search :=
           (store_locate {| to_pathname := built;
                            to_search := qs_stringify
                                           (qstrings (splitParams r params).2) |}).2;
         loc_state := None |}.
Proof.
  intros H.
  assert (∃ r built,
    find (λ r, bool_decide (r_name r = name)) (routes st) = Some r ∧
    path_build (r_path r) (splitParams r params).1 = Ok built ∧
    st' = notified (moved a {| to_pathname := built;
                               to_search := qs_stringify
                                              (qstrings (splitParams r params).2) |}
                      None st)) as (r & built & Hf & Hb & ->).
  { destruct H as [[-> H]|[-> H]].
    - rewrite push_run in H. unfold prepared in H.
      destruct (find _ (routes st)) as [r|] eqn:Hf; [|discriminate].
      destruct (path_build (r_path r) (splitParams r params).1) as [built|e] eqn:Hb;
        [|discriminate].
      injection H as <-. exists r, built. by split_and!.
    - rewrite replace_run in H. unfold prepared in H.
      destruct (find _ (routes st)) as [r|] eqn:Hf; [|discriminate].
      destruct (path_build (r_path r) (splitParams r params).1) as [built|e] eqn:Hb;
        [|discriminate].
      injection H as <-. exists r, built. by split_and!. }
  exists r, built. split_and!; [by apply getRoute_found|done..].
Qed.

(** X13. For a store that reports the pathname it is given, [setQuery]
    changes neither the current route, nor the [params] of any route, nor
    [pathname]: only the search string moves. *)
Theorem setQuery_keeps_the_route key (value : option string) st :
  (∀ t, (store_locate t).1 = to_pathname t) →
  ∃ st', setQuery key value st = (st', Ok tt) ∧
    (current st').2 = (current st).2 ∧
    (pathname st').2 = (pathname st).2 ∧
    (∀ r, route_params st' r = route_params st r) ∧
    routes st' = routes st ∧ listeners st' = listeners st.
Proof.
  intros Hstore. rewrite setQuery_run. eexists. split; [reflexivity|].
  assert (Hp : current_pathname (moved Replace (query_target key value st)
                 (Some {| isQueryUpdate := true |}) st) = current_pathname st).
  { unfold current_pathname. simpl. by rewrite Hstore. }
  unfold current, getActiveRoute, pathname, gets, route_params. simpl.
  fold (current_pathname (moved Replace (query_target key value st)
          (Some {| isQueryUpdate := true |}) st)).
  rewrite !Hp. fold (current_pathname st). by split_and!.
Qed.

(** X14. When the codec reads back from the store the search string that
    [setQuery] wrote, [queries] then holds the value under the key (nothing
    when the value was [undefined]) and, under every other key, what it
    held before. *)
Theorem setQuery_then_queries key (value : option string) st :
  qs_parse
    (store_locate
       {| to_pathname := current_pathname st;
          to_search := "?" +:+ qs_stringify
                         (updated_query (qs_parse (current_search st)) key value) |}).2
  = updated_query (qs_parse (current_search st)) key value →
  ∃ st' m, setQuery key value st = (st', Ok tt) ∧
    queries st' = (st', Ok m) ∧
    m !! key = QStr <$> value ∧
    ∀ k, k ≠ key → m !! k = qs_parse (current_search st) !! k.
Proof.
  intros Hback. rewrite setQuery_run. eexists. eexists.
  split; [reflexivity|]. split.
  - unfold queries, gets, current_search. simpl.
    unfold query_target. rewrite Hback. reflexivity.
  - unfold updated_query. destruct value as [v|]; simpl; split.
    + apply lookup_insert_eq.
    + intros k Hk. by apply lookup_insert_ne.
    + apply lookup_delete_eq.
    + intros k Hk. by apply lookup_delete_ne.
Qed.

(** X15. When the store reports the pathname it is given, no route declared
    before the looked-up one accepts the built path and the matcher reads
    its captures back from it, a [push] makes the looked-up route the
    current one, with those captures as [params], and every listener is
    called with a copy that bears the name and the captures. *)
Theorem push_then_current name (params : option (gmap string (option string)))
    st r (built : string) (captures : gmap string string) :
  getRoute name st = (st, Ok r) →
  path_build (r_path r) (splitParams r params).1 = Ok built →
  (∀ t, (store_locate t).1 = to_pathname t) →
  (∀ i j r', routes st !! i = Some r → j < i → routes st !! j = Some r' →
     path_test (r_path r') built = None) →
  path_test (r_path r) built = Some captures →
  ∃ st' new,
    push name params st = (st', Ok tt) ∧
    current st' = (st', Ok (Some r)) ∧
    route_params st' r = captures ∧
    calls st' = calls st ++ new ∧
    inv_listener <$> new = listeners st ∧
    ∀ c, c ∈ new →
      ∃ v, inv_arg c = Some v ∧ rs_name v = name ∧ rs_params v = captures.
Proof.
  intros Hr Hb Hstore Hfirst Htest.
  destruct (getRoute_ok _ _ _ _ Hr) as [_ Hf].
  destruct (find_first _ _ _ Hf) as (i & Hi & Hn & _).
  apply bool_decide_eq_true in Hn.
  set (t := {| to_pathname := built;
               to_search := qs_stringify (qstrings (splitParams r params).2) |}).
  assert (Hpush : push name params st = (notified (moved Push t None st), Ok tt)).
  { rewrite push_run. unfold prepared. by rewrite Hf, Hb. }
  assert (Hp : current_pathname (moved Push t None st) = built).
  { unfold current_pathname. simpl. by rewrite Hstore. }
  assert (Hm : matchPath (routes st) built = Some r).
  { unfold matchPath. apply (find_at _ _ i); [done| |].
    - apply bool_decide_eq_true. by rewrite Htest.
    - intros j r' Hj Hr'. apply bool_decide_eq_false.
      rewrite (Hfirst i j r' Hi Hj Hr'). by intros [? ?]. }
  exists (notified (moved Push t None st)),
         (fan_out (moved Push t None st) (Some r)
            (next_ref st) (listeners st)).
  assert (Hact : matchPath (routes (moved Push t None st))
                   (current_pathname (moved Push t None st)) = Some r)
    by (by rewrite Hp).
  split_and!.
  - exact Hpush.
  - unfold current, getActiveRoute, gets.
    change (current_pathname (notified (moved Push t None st)))
      with (current_pathname (moved Push t None st)).
    change (routes (notified (moved Push t None st)))
      with (routes (moved Push t None st)).
    by rewrite Hact.
  - unfold route_params.
    change (current_pathname (notified (moved Push t None st)))
      with (current_pathname (moved Push t None st)).
    by rewrite Hp, Htest.
  - unfold notified. rewrite Hact. done.
  - apply fan_out_listeners.
  - intros c Hc. apply fan_out_argument in Hc as [k Hk].
    eexists. split; [exact Hk|]. simpl. split; [done|].
    unfold route_params. by rewrite Hp, Htest.
Qed.

(** *** Reading *)

Lemma substring_from_cut (n : nat) (s : string) :
  ∃ pre, s = pre +:+ substring_from n s ∧
         String.length pre = n `min` String.length s.
Proof.
  revert s. induction n as [|n IH]; intros s.
  - exists "". by split.
  - destruct s as [|a s]; [exists ""; by split|].
    destruct (IH s) as (pre & Hs & Hl). exists (String a pre). split.
    + rewrite string_app_cons. simpl. by rewrite <- Hs.
    + simpl. by rewrite Hl.
Qed.

(** X16. [pathname] is the store's pathname with its first characters cut
    off, as many as the base has and whatever they are; when the pathname
    is not longer than the base, it is the empty string. *)
Theorem pathname_cuts_by_length st :
  ∃ pre rest,
    pathname st = (st, Ok rest) ∧
    current_pathname st = pre +:+ rest ∧
    String.length pre = base_length (base st) `min` String.length (current_pathname st) ∧
    (String.length (current_pathname st) ≤ base_length (base st) → rest = "").
Proof.
  destruct (substring_from_cut (base_length (base st)) (current_pathname st))
    as (pre & Hs & Hl).
  exists pre, (substring_from (base_length (base st)) (current_pathname st)).
  split_and!; [done..|].
  intros Hle.
  pose proof (substring_from_length (base_length (base st)) (current_pathname st)) as H.
  destruct (substring_from _ _); [done|]. simpl in H. lia.
Qed.

(** X17. [url], [current], [queries] and [pathname] only read: whether they
    return or throw, the router is as it was, the store and the calls made
    to listeners included. *)
Theorem reads_change_nothing name (params : option (gmap string (option string))) st :
  (url name params st).1 = st ∧ (current st).1 = st ∧
  (queries st).1 = st ∧ (pathname st).1 = st.
Proof. rewrite url_run. by split_and!. Qed.

Lemma run_next_ref o st : next_ref st ≤ next_ref (run o st).
Proof.
  destruct (run_shape o st) as [->|[[h ->]|[[h ->]|[[l ->]|[l ->]]]]];
    try done; simpl; try lia.
  destruct (bool_decide _); simpl; lia.
Qed.

(** X18. Nothing that is done with a router changes its table or its base;
    the listener set stays without repetition; the calls made to listeners
    are only ever added to, and identities only ever handed out. *)
Theorem router_keeps_its_table st0 st :
  reachable st0 st →
  routes st = routes st0 ∧ base st = base st0 ∧
  (NoDup (listeners st0) → NoDup (listeners st)) ∧
  calls st0 `prefix_of` calls st ∧
  next_ref st0 ≤ next_ref st.
Proof.
  induction 1 as [|o st Hreach (IHr & IHb & IHl & IHc & IHn)].
  - by split_and!.
  - destruct (run_routes o st) as [Hr Hb].
    destruct (run_calls o st) as (new & Hnew & _).
    pose proof (run_next_ref o st).
    split_and!.
    + congruence.
    + congruence.
    + intros H0. by apply run_listeners_NoDup, IHl.
    + rewrite Hnew. by apply prefix_app_r.
    + lia.
Qed.

End More.

(** ** The further properties on the routers above *)

Section MoreChecks.
Local Existing Instance Segments.matcher.
Local Existing Instance PlainQuery.codec.
Local Existing Instance Browser.store.

(** X3 on the README's router: after disposal, two navigations, a query
    update and a move back call the listener no more. *)
Lemma disposed_listener_is_not_called_witness :
  how_often 7 (calls (foldl (λ s o, run o s) (dispose 7 one_listener).1 after_disposal))
  = how_often 7 (calls one_listener).
Proof.
  apply disposed_listener_is_not_called.
  intros H. unfold after_disposal in H.
  repeat (apply elem_of_cons in H as [H|H]; [discriminate|]).
  by apply elem_of_nil in H.
Defined.

(** X4 on a move back onto an entry that [setQuery] made: the listener is
    called. *)
Lemma notify_passes_unless_marked_replace_witness :
  ∃ st' new,
    notify {| u_action := Pop; u_location := marked_home |} one_listener = (st', Ok tt) ∧
    calls st' = calls one_listener ++ new ∧
    inv_listener <$> new = [7].
Proof.
  destruct (notify_passes_unless_marked_replace
              {| u_action := Pop; u_location := marked_home |} one_listener)
    as (st' & new & H1 & H2 & H3 & _); [by left|].
  exists st', new. split_and!; [exact H1|exact H2|exact H3].
Defined.

(** X5 on the same router at [/]: the listener is handed a copy of [main]. *)
Lemma listener_argument_is_current_witness :
  ∃ r, current (notify {| u_action := Pop; u_location := home |} one_listener).1
       = ((notify {| u_action := Pop; u_location := home |} one_listener).1,
          Ok (Some r)) ∧
    rs_name main_copy = r_name r ∧ rs_path main_copy = r_path r ∧
    rs_params main_copy
    = route_params (notify {| u_action := Pop; u_location := home |} one_listener).1 r ∧
    queries (notify {| u_action := Pop; u_location := home |} one_listener).1
    = ((notify {| u_action := Pop; u_location := home |} one_listener).1,
       Ok (rs_queries main_copy)) ∧
    pathname (notify {| u_action := Pop; u_location := home |} one_listener).1
    = ((notify {| u_action := Pop; u_location := home |} one_listener).1,
       Ok (rs_pathname main_copy)).
Proof.
  assert (H1 : notify {| u_action := Pop; u_location := home |} one_listener
               = ((notify {| u_action := Pop; u_location := home |} one_listener).1,
                  Ok tt)) by (vm_compute; reflexivity).
  assert (H2 : calls (notify {| u_action := Pop; u_location := home |} one_listener).1
               = calls one_listener ++ [main_call]) by (vm_compute; reflexivity).
  assert (H3 : main_call ∈ [main_call]) by left.
  exact (listener_argument_is_current _ _ _ _ H1 H2 main_call H3).
Defined.

(** X7 on the base [app]. *)
Lemma base_gets_leading_slash_witness :
  createRouter app_config (Some "app") at_app_items
  = createRouter app_config (Some "/app") at_app_items.
Proof.
  apply (base_gets_leading_slash app_config "app" at_app_items);
    [discriminate|reflexivity].
Defined.

(** X10 on the README's router after a move of the user. *)
Lemma getRoute_finds_the_entry_witness :
  ∃ r, getRoute "item" (run (OPop at_items_7) readme_router)
       = (run (OPop at_items_7) readme_router, Ok r) ∧
    routes (run (OPop at_items_7) readme_router) !! 2 = Some r ∧
    r_name r = "item" ∧
    newPath "/items/:id" = Ok (r_path r).
Proof.
  apply (getRoute_finds_the_entry readme_config None home readme_router
           (run (OPop at_items_7) readme_router) 2 "item" "/items/:id").
  - exact readme_router_created.
  - apply reachable_run, reachable_start.
  - apply (bool_decide_unpack _). by vm_compute.
  - reflexivity.
Defined.

(** X11 on [push('item')] without the [id] that the path needs. *)
Lemma build_error_stops_navigation_witness :
  push "item" None readme_router
  = (readme_router, Throw (CollaboratorError "Cannot build path: missing parameters")).
Proof.
  destruct (build_error_stops_navigation "item" None readme_router readme_item_route
              (CollaboratorError "Cannot build path: missing parameters"))
    as (_ & H & _); [vm_compute; reflexivity..|exact H].
Defined.

(** X12 on [push('items', {page: '1'})]: the store is handed [page=1]. *)
Lemma navigation_is_one_store_call_witness :
  ∃ st', push "items" (Some {[ "page" := Some "1" ]}) readme_router = (st', Ok tt) ∧
    h_calls (hist st')
    = [{| nc_action := Push;
          nc_to := {| to_pathname := "/items"; to_search := "page=1" |};
          nc_state := None |}] ∧
    loc_search (h_location (hist st')) = "?page=1".
Proof.
  exists (push "items" (Some {[ "page" := Some "1" ]}) readme_router).1.
  assert (E : push "items" (Some {[ "page" := Some "1" ]}) readme_router
              = ((push "items" (Some {[ "page" := Some "1" ]}) readme_router).1, Ok tt))
    by (vm_compute; reflexivity).
  split; [exact E|].
  destruct (navigation_is_one_store_call "items" (Some {[ "page" := Some "1" ]})
              readme_router _ Push (or_introl (conj eq_refl E)))
    as (r & built & Hr & Hb & Hcalls & Hloc).
  vm_compute in Hr. injection Hr as <-.
  vm_compute in Hb. injection Hb as <-.
  rewrite Hcalls, Hloc. split; vm_compute; reflexivity.
Defined.

(** X13 on the browser's store. *)
Lemma setQuery_keeps_the_route_witness :
  ∃ st', setQuery "page" (Some "2") (run (OPop at_items_7) readme_router) = (st', Ok tt) ∧
    (current st').2 = Ok (Some readme_item_route).
Proof.
  destruct (setQuery_keeps_the_route "page" (Some "2")
              (run (OPop at_items_7) readme_router))
    as (st' & Hs & Hc & _); [done|].
  exists st'. split; [exact Hs|]. rewrite Hc. vm_compute. reflexivity.
Defined.

(** X14 on [/?foo=bar]: setting [page] keeps [foo]. *)
Lemma setQuery_then_queries_witness :
  ∃ st' m,
    setQuery "page" (Some "2") (new_router readme_routes None at_foo_bar) = (st', Ok tt) ∧
    queries st' = (st', Ok m) ∧
    m !! "page" = Some (QStr "2") ∧ m !! "foo" = Some (QStr "bar").
Proof.
  destruct (setQuery_then_queries "page" (Some "2")
              (new_router readme_routes None at_foo_bar))
    as (st' & m & Hs & Hq & Hk & Hother); [vm_compute; reflexivity|].
  exists st', m. split_and!; [exact Hs|exact Hq|exact Hk|].
  rewrite (Hother "foo") by discriminate. vm_compute. reflexivity.
Defined.

(** X15 on [push('item', {id: '7', sort: 'asc'})], the specific route being
    declared first. *)
Lemma push_then_current_witness :
  ∃ st', push "item" item_values specific_router = (st', Ok tt) ∧
    current st' = (st', Ok (Some item_route)) ∧
    route_params st' item_route = {[ "id" := "7" ]}.
Proof.
  destruct (push_then_current "item" item_values specific_router item_route
              "/items/7" {[ "id" := "7" ]})
    as (st' & new & Hp & Hc & Hr & _).
  - vm_compute. reflexivity.
  - vm_compute. reflexivity.
  - done.
  - intros [|[|i]] j r' Hi Hj Hr'; [lia|discriminate|discriminate].
  - vm_compute. reflexivity.
  - exists st'. by split_and!.
Defined.

(** X18 on the README's router after the operations above. *)
Lemma router_keeps_its_table_witness :
  routes (foldl (λ s o, run o s) one_listener after_disposal) = readme_routes ∧
  base (foldl (λ s o, run o s) one_listener after_disposal) = None.
Proof.
  destruct (router_keeps_its_table one_listener
              (foldl (λ s o, run o s) one_listener after_disposal))
    as (Hr & Hb & _).
  - unfold after_disposal. cbn [foldl]. do 4 apply reachable_run. apply reachable_start.
  - split; [exact Hr|exact Hb].
Defined.

End MoreChecks.
